(** * pulp-dsp: the 8-bit RMS kernels, their cluster dispatcher, and the
      8-bit complex conjugate

    A shallow embedding of

    - [plp_rms_q8s_rv32im]        (StatisticsFunctions/kernels/plp_rms_q8s_rv32im.c)
    - [plp_rms_q8p_xpulpv2]       (StatisticsFunctions/kernels/plp_rms_q8p_xpulpv2.c)
    - [plp_rms_q8_parallel]       (the glue code of the RMS group)
    - [plp_cmplx_conj_i8_rv32im]  (ComplexMathFunctions/kernels/plp_cmplx_conj_i8_rv32im.c)

    Machine integers are [Z] with the wrap-around written out.  What C
    leaves undefined on the operands of an operator or on an address (a
    shift count of 32 or more, a division by zero, a load or a store outside
    the object) is the result [None].  Signed overflow is two's-complement
    wrap-around, the behaviour of the RV32 instructions the kernels compile
    to.  The cores of a team are run one after the other: every worker
    writes a slot of its own and reads no slot, so the interleaving does not
    show in the result. *)

From Stdlib Require Import ZArith List Bool Lia Permutation.
From Stdlib Require String.
Import String.StringSyntax.
Import ListNotations.
Local Open Scope Z_scope.

(** ** Machine integers *)

Module CInt.

(** Conversion to [uint32_t]. *)
Definition u32 (z : Z) : Z := z mod 2 ^ 32.

(** Conversion to [int32_t]. *)
Definition s32 (z : Z) : Z := (z + 2 ^ 31) mod 2 ^ 32 - 2 ^ 31.

(** Conversion to [int8_t]: the low eight bits, read as two's complement. *)
Definition s8 (z : Z) : Z := (z + 2 ^ 7) mod 2 ^ 8 - 2 ^ 7.

Definition INT8_MIN : Z := -128.
Definition INT8_MAX : Z := 127.

(** The values an [int8_t] cell can hold. *)
Definition int8 (z : Z) : Prop := INT8_MIN <= z <= INT8_MAX.

(** [x >> n] on an [int32_t]: arithmetic shift, defined for [0 <= n < 32]. *)
Definition asr32 (x n : Z) : option Z :=
  if (0 <=? n) && (n <? 32) then Some (Z.shiftr x n) else None.

(** [a / b] on [uint32_t] operands. *)
Definition divu32 (a b : Z) : option Z :=
  if b =? 0 then None else Some (a / b).

(** [a % b] on [uint32_t] operands. *)
Definition remu32 (a b : Z) : option Z :=
  if b =? 0 then None else Some (a mod b).

(** [a / b] on [int32_t] operands: the quotient truncated toward zero,
    undefined for a zero divisor and for [INT32_MIN / -1]. *)
Definition divs32 (a b : Z) : option Z :=
  if (b =? 0) || ((a =? - 2 ^ 31) && (b =? -1))
  then None
  else Some (Z.quot a b).

End CInt.
Import CInt.

(** ** The undefined-behaviour monad *)

Definition bind {A B : Type} (m : option A) (k : A -> option B) : option B :=
  match m with
  | Some a => k a
  | None => None
  end.

Notation "x <- m ;; k" := (bind m (fun x => k))
  (at level 61, m at next level, right associativity).
Notation "' p <- m ;; k" := (bind m (fun p => k))
  (at level 61, p pattern, m at next level, right associativity).

(** [n] passes through a loop body, threading the loop state. *)
Fixpoint iter {St : Type} (n : nat) (body : St -> option St) (s : St)
  : option St :=
  match n with
  | O => Some s
  | S n' => s' <- body s ;; iter n' body s'
  end.

(** ** Memory: a vector of [int8_t] cells addressed by offset *)

(** [*p] on a pointer at offset [p] of the vector [mem]. *)
Definition load (mem : list Z) (p : Z) : option Z :=
  if p <? 0 then None else nth_error mem (Z.to_nat p).

Fixpoint update (mem : list Z) (n : nat) (v : Z) : list Z :=
  match mem, n with
  | [], _ => []
  | _ :: tl, O => v :: tl
  | x :: tl, S n' => x :: update tl n' v
  end.

(** [*p = v] on a pointer at offset [p] of the vector [mem]. *)
Definition store (mem : list Z) (p : Z) (v : Z) : option (list Z) :=
  if (0 <=? p) && (p <? Z.of_nat (length mem))
  then Some (update mem (Z.to_nat p) v)
  else None.

(** ** plp_rms_q8s_rv32im *)

Module Rms.

(** The loop state: the moving pointer [pSrc] and the accumulator [accu]. *)
Definition state : Type := Z * Z.

(** [temp1 = *pSrc++; accu += (temp1 * temp1) >> fracBits;] *)
Definition body1 (mem : list Z) (fracBits : Z) (st : state) : option state :=
  let '(pSrc, accu) := st in
  temp1 <- load mem pSrc ;;
  sq1 <- asr32 (s32 (temp1 * temp1)) fracBits ;;
  Some (pSrc + 1, s32 (accu + sq1)).

(** The body of the unrolled loop: two loads, each moving the pointer,
    then two accumulations. *)
Definition body2 (mem : list Z) (fracBits : Z) (st : state) : option state :=
  let '(pSrc, accu) := st in
  temp1 <- load mem pSrc ;;
  temp2 <- load mem (pSrc + 1) ;;
  sq1 <- asr32 (s32 (temp1 * temp1)) fracBits ;;
  sq2 <- asr32 (s32 (temp2 * temp2)) fracBits ;;
  Some (pSrc + 1 + 1, s32 (s32 (accu + sq1) + sq2)).

(** The loop without [PLP_MATH_LOOPUNROLL]. *)
Definition loop_simple (mem : list Z) (pSrc blockSize fracBits : Z)
  : option state :=
  iter (Z.to_nat blockSize) (body1 mem fracBits) (pSrc, 0).

(** The loops under [PLP_MATH_LOOPUNROLL]: [blockSize >> 1] double steps
    and one more step when [blockSize % 2 == 1]. *)
Definition loop_unrolled (mem : list Z) (pSrc blockSize fracBits : Z)
  : option state :=
  st <- iter (Z.to_nat (Z.shiftr blockSize 1)) (body2 mem fracBits) (pSrc, 0) ;;
  if blockSize mod 2 =? 1 then body1 mem fracBits st else Some st.

(** [accu / blockSize] with [accu] an [int32_t] and [blockSize] a
    [uint32_t]: the accumulator is converted to [uint32_t], the division
    is unsigned, and the store to [*pRes] keeps the low eight bits. *)
Definition finish (accu blockSize : Z) : option Z :=
  q <- divu32 (u32 accu) blockSize ;;
  Some (s8 q).

(** The loop the build selects. *)
Definition loop (PLP_MATH_LOOPUNROLL : bool)
    (mem : list Z) (pSrc blockSize fracBits : Z) : option state :=
  if PLP_MATH_LOOPUNROLL
  then loop_unrolled mem pSrc blockSize fracBits
  else loop_simple mem pSrc blockSize fracBits.

(** The kernel; the result is the value stored to [*pRes]. *)
Definition plp_rms_q8s_rv32im (PLP_MATH_LOOPUNROLL : bool)
    (mem : list Z) (pSrc blockSize fracBits : Z) : option Z :=
  st <- loop PLP_MATH_LOOPUNROLL mem pSrc blockSize fracBits ;;
  finish (snd st) blockSize.

End Rms.

(** ** The cluster side: worker and dispatcher *)

Module Cluster.

(** Where an [int8_t *] of the dispatcher can point: nowhere, at the
    caller's output cell, or into the block [rt_alloc] handed out. *)
Inductive ptr : Type := NULL | Caller | Scratch.

(** What a call can observe or change, besides the read-only source
    vector. *)
Record machine : Type := {
  console : list String.string;   (* what printf has written *)
  result : Z;              (* the caller's cell, the target of pRes *)
  cl_data : list Z;        (* the block of the latest rt_alloc *)
  resultsBuffer : ptr;     (* the RT_CL_DATA global *)
  allocs : list Z;         (* sizes asked of rt_alloc *)
  teams : list Z           (* team sizes started by rt_team_fork *)
}.

(** Modelled from the spec: the runtime the glue code calls is not among
    the sources.  Section 6 names its services: the execution-context
    query ([rt_cluster_id], compared with [ARCHI_FC_CID]) and the scratch
    allocator ([rt_alloc], which can fail); [cl_junk] is what a fresh
    cell holds. *)
Record runtime : Type := {
  ARCHI_FC_CID : Z;
  rt_cluster_id : Z;
  rt_alloc_ok : Z -> bool;
  cl_junk : nat -> Z
}.

(** The diagnostic of the dispatcher, with its line feed. *)
Definition wrong_context : String.string :=
  String.append "parallel processing supported only for cluster side"
                (String.String (Ascii.ascii_of_nat 10) String.EmptyString).

Definition printf (s : String.string) (m : machine) : machine :=
  {| console := console m ++ [s]; result := result m; cl_data := cl_data m;
     resultsBuffer := resultsBuffer m; allocs := allocs m; teams := teams m |}.

Definition set_result (v : Z) (m : machine) : machine :=
  {| console := console m; result := v; cl_data := cl_data m;
     resultsBuffer := resultsBuffer m; allocs := allocs m; teams := teams m |}.

Definition set_cl_data (d : list Z) (m : machine) : machine :=
  {| console := console m; result := result m; cl_data := d;
     resultsBuffer := resultsBuffer m; allocs := allocs m; teams := teams m |}.

Definition set_resultsBuffer (p : ptr) (m : machine) : machine :=
  {| console := console m; result := result m; cl_data := cl_data m;
     resultsBuffer := p; allocs := allocs m; teams := teams m |}.

(** [*(p + off)] *)
Definition fetch (p : ptr) (off : Z) (m : machine) : option Z :=
  match p with
  | NULL => None
  | Caller => if off =? 0 then Some (result m) else None
  | Scratch => load (cl_data m) off
  end.

(** [*(p + off) = v] *)
Definition assign (p : ptr) (off : Z) (v : Z) (m : machine) : option machine :=
  match p with
  | NULL => None
  | Caller => if off =? 0 then Some (set_result v m) else None
  | Scratch => d <- store (cl_data m) off v ;; Some (set_cl_data d m)
  end.

(** [rt_alloc(RT_ALLOC_CL_DATA, size)]: the pointer returned, and the
    machine with the request logged and the fresh block in place. *)
Definition rt_alloc (rt : runtime) (size : Z) (m : machine) : ptr * machine :=
  let logged (d : list Z) :=
    {| console := console m; result := result m; cl_data := d;
       resultsBuffer := resultsBuffer m; allocs := allocs m ++ [size];
       teams := teams m |} in
  if rt_alloc_ok rt size
  then (Scratch, logged (map (cl_junk rt) (seq 0 (Z.to_nat size))))
  else (NULL, logged (cl_data m)).

(** The cores [first, first + 1, ...] of a team, one after the other:
    every worker writes a slot of its own and reads no other, so the
    order does not show. *)
Fixpoint run_team (n : nat) (first : Z)
    (entry : Z -> machine -> option machine) (m : machine) : option machine :=
  match n with
  | O => Some m
  | S n' => m' <- entry first m ;; run_team n' (first + 1) entry m'
  end.

(** Modelled from the spec: [rt_team_fork] is not among the sources.
    Section 6: it starts N worker invocations bound to N distinct cores,
    each with its own core identity (0-indexed), and blocks the caller
    until all of them have reached the barrier. *)
Definition rt_team_fork (nb_cores : Z)
    (entry : Z -> machine -> option machine) (m : machine) : option machine :=
  run_team (Z.to_nat nb_cores) 0 entry
    {| console := console m; result := result m; cl_data := cl_data m;
       resultsBuffer := resultsBuffer m; allocs := allocs m;
       teams := teams m ++ [nb_cores] |}.

(** The core identities [first, first + 1, ...] of a team of [n]. *)
Fixpoint cores (n : nat) (first : Z) : list Z :=
  match n with
  | O => []
  | S n' => first :: cores n' (first + 1)
  end.

(** A call is rejected when it returns with a diagnostic on the console
    and nothing computed: the caller's cell as it was, no allocation, no
    team started. *)
Definition rejected (m : machine) (r : option machine) : Prop :=
  exists m', r = Some m'
             /\ console m' <> console m
             /\ result m' = result m
             /\ allocs m' = allocs m
             /\ teams m' = teams m.

(** The task descriptor.  [pSrc] is an offset into the source vector. *)
Record plp_rms_instance_q8 : Type := {
  pSrc : Z;
  blockSize : Z;
  fracBits : Z;
  pRes : ptr;
  nPE : Z
}.

(** Lines 52 to 62 of the worker: the slice of core [core_id], as the
    offset of its first element and its length [blockSizeC]. *)
Definition slice (S : plp_rms_instance_q8) (core_id : Z) : option (Z * Z) :=
  blockSizeP <- divu32 (u32 (blockSize S + nPE S - 1)) (nPE S) ;;
  blockSizeC <-
    (if core_id =? nPE S - 1
     then r <- remu32 (blockSize S) (nPE S) ;;
          if r =? 0 then Some blockSizeP else remu32 (blockSize S) blockSizeP
     else Some blockSizeP) ;;
  Some (pSrc S + u32 (core_id * blockSizeP), blockSizeC).

Section Worker.

(** The single-core kernel of the cluster side, [plp_rms_q8s_xpulpv2],
    which is not among the sources: the value it stores for a vector,
    a start offset, a length and a shift. *)
Variable kernel : list Z -> Z -> Z -> Z -> option Z.

(** The source vector. *)
Variable mem : list Z.

(** What core [core_id] computes for its slot. *)
Definition partial (S : plp_rms_instance_q8) (core_id : Z) : option Z :=
  '(p, blockSizeC) <- slice S core_id ;;
  kernel mem p blockSizeC (fracBits S).

(** The worker on core [core_id = rt_core_id()]; the kernel stores
    through [S->pRes + rt_core_id()].  The closing [rt_team_barrier()]
    orders the stores before the dispatcher's loads and has no effect of
    its own on a team run core after core. *)
Definition plp_rms_q8p_xpulpv2 (S : plp_rms_instance_q8) (core_id : Z)
    (m : machine) : option machine :=
  v <- partial S core_id ;;
  assign (pRes S) core_id v m.

(** [accu += *(resultsBuffer + i)] with a [uint8_t] counter. *)
Definition collect (m : machine) (st : Z * Z) : option (Z * Z) :=
  let '(i, accu) := st in
  v <- fetch (resultsBuffer m) i m ;;
  Some ((i + 1) mod 2 ^ 8, s32 (accu + v)).

(** The dispatcher; [pRes] is the caller's cell.  The local [resBuf] of
    the source is assigned and never read. *)
Definition plp_rms_q8_parallel (rt : runtime)
    (pSrc blockSize fracBits nPE : Z) (m : machine) : option machine :=
  if rt_cluster_id rt =? ARCHI_FC_CID rt then
    Some (printf wrong_context m)
  else
    let m1 :=
      if 1 <? nPE
      then let '(p, m') := rt_alloc rt nPE m in set_resultsBuffer p m'
      else set_resultsBuffer Caller m in
    let S := {| pSrc := pSrc; blockSize := blockSize; fracBits := fracBits;
                pRes := resultsBuffer m1; nPE := nPE |} in
    m2 <- rt_team_fork nPE (plp_rms_q8p_xpulpv2 S) m1 ;;
    if 1 <? nPE then
      st <- iter (Z.to_nat nPE) (collect m2) (0, 0) ;;
      q <- divs32 (snd st) nPE ;;
      assign Caller 0 (s8 q) m2
    else
      v <- fetch (resultsBuffer m2) 0 m2 ;;
      assign Caller 0 v m2.

(** Modelled from the spec: the single-core entry point [rms] of
    section 6 (the glue code [plp_rms_q8]) is not among the sources.
    It runs the single-core kernel of the calling context on the whole
    vector, with no concurrency, and the value lands in the caller's
    cell. *)
Definition plp_rms_q8 (pSrc blockSize fracBits : Z) (m : machine)
  : option machine :=
  v <- kernel mem pSrc blockSize fracBits ;;
  assign Caller 0 v m.

End Worker.

End Cluster.

(** Modelled from the spec: [plp_rms_q8s_xpulpv2], which the worker calls,
    is not among the sources.  Section 4.1 gives the single-core kernel one
    contract, and the sources hold one kernel that implements it, so the
    cluster-side kernel is taken to store what [plp_rms_q8s_rv32im]
    stores. *)
Definition plp_rms_q8s_xpulpv2 : list Z -> Z -> Z -> Z -> option Z :=
  Rms.plp_rms_q8s_rv32im true.

(** ** Concrete contexts for the scenarios *)

Module Scenario.
Import Cluster.

(** A cluster core, with scratch memory to spare. *)
Definition cluster_side : runtime :=
  {| ARCHI_FC_CID := 32; rt_cluster_id := 0;
     rt_alloc_ok := fun _ => true; cl_junk := fun _ => 77 |}.

(** The fabric controller. *)
Definition controller : runtime :=
  {| ARCHI_FC_CID := 32; rt_cluster_id := 32;
     rt_alloc_ok := fun _ => true; cl_junk := fun _ => 77 |}.

(** The machine before a call; the caller's cell holds 42. *)
Definition before : machine :=
  {| console := []; result := 42; cl_data := []; resultsBuffer := NULL;
     allocs := []; teams := [] |}.

Definition ones : list Z := [1; 1; 1; 1; 1; 1; 1; 1].

End Scenario.

(** ** plp_cmplx_conj_i8_rv32im *)

Module Conj.

(** The loop state: the two moving pointers, the destination vector and
    the [int8_t] flag [sign]. *)
Record state : Type := {
  pSrc : Z;
  pDst : Z;
  dst : list Z;
  sign : Z
}.

Definition body (mem : list Z) (st : state) : option state :=
  v <- (if sign st =? 1
        then load mem (pSrc st)
        else in_ <- load mem (pSrc st) ;;
             Some (if in_ =? INT8_MIN then INT8_MAX else s8 (- in_))) ;;
  d <- store (dst st) (pDst st) v ;;
  Some {| pSrc := pSrc st + 1; pDst := pDst st + 1; dst := d;
          sign := s8 (sign st * -1) |}.

(** The kernel; the result is the destination vector after the call. *)
Definition plp_cmplx_conj_i8_rv32im (mem dst0 : list Z) (numSamples : Z)
  : option (list Z) :=
  let blkCnt := u32 (2 * numSamples) in
  st <- iter (Z.to_nat blkCnt) (body mem)
          {| pSrc := 0; pDst := 0; dst := dst0; sign := 1 |} ;;
  Some (dst st).

End Conj.

(** ** The contract of section 4.1, in the words of the specification *)

Module Spec.

Definition sum (xs : list Z) : Z := fold_right Z.add 0 xs.

(** [sample^2 >> fracBits] *)
Definition term (fracBits x : Z) : Z := Z.shiftr (x * x) fracBits.

(** The samples [p, p + 1, ..., p + len - 1] of a vector. *)
Definition slice (mem : list Z) (p len : Z) : list Z :=
  firstn (Z.to_nat len) (skipn (Z.to_nat p) mem).

(** The sum of the shifted squares, held in a signed 32-bit accumulator. *)
Definition accu (fracBits : Z) (xs : list Z) : Z :=
  s32 (sum (map (term fracBits) xs)).

(** [accu / blockSize], truncated toward zero and narrowed to 8 bits. *)
Definition rms (fracBits : Z) (xs : list Z) : Z :=
  s8 (Z.quot (accu fracBits xs) (Z.of_nat (length xs))).

(** What the conjugate stores for an imaginary part: its negation,
    saturated at the one value whose negation does not fit. *)
Definition conj_imag (x : Z) : Z :=
  if x =? INT8_MIN then INT8_MAX else - x.

(** The conjugate of interleaved samples; [real] tells whether the head
    is a real part. *)
Fixpoint conj_from (real : bool) (xs : list Z) : list Z :=
  match xs with
  | [] => []
  | x :: tl => (if real then x else conj_imag x) :: conj_from (negb real) tl
  end.

(** [P] is the ceiling of [a / b]. *)
Definition is_ceil (P a b : Z) : Prop := (P - 1) * b < a <= P * b.

End Spec.

(** * Proofs *)

(** ** Machine integers *)

Lemma s32_small z : - 2 ^ 31 <= z < 2 ^ 31 -> s32 z = z.
Proof.
  intros H. unfold s32. rewrite Z.mod_small; lia.
Qed.

Lemma s32_range z : - 2 ^ 31 <= s32 z < 2 ^ 31.
Proof.
  unfold s32. pose proof (Z.mod_pos_bound (z + 2 ^ 31) (2 ^ 32)). lia.
Qed.

Lemma s32_add_l a b : s32 (s32 a + b) = s32 (a + b).
Proof.
  unfold s32.
  replace ((a + 2 ^ 31) mod 2 ^ 32 - 2 ^ 31 + b + 2 ^ 31)
    with ((a + 2 ^ 31) mod 2 ^ 32 + b) by lia.
  rewrite Zplus_mod_idemp_l. f_equal. f_equal. lia.
Qed.

Lemma u32_s32 z : u32 (s32 z) = u32 z.
Proof.
  unfold u32, s32.
  rewrite Zminus_mod_idemp_l.
  f_equal. lia.
Qed.

Lemma u32_small z : 0 <= z < 2 ^ 32 -> u32 z = z.
Proof. intros H. unfold u32. now rewrite Z.mod_small. Qed.

Lemma s8_small z : -128 <= z <= 127 -> s8 z = z.
Proof.
  intros H. unfold s8. rewrite Z.mod_small; lia.
Qed.

Lemma s8_range z : -128 <= s8 z <= 127.
Proof.
  unfold s8. pose proof (Z.mod_pos_bound (z + 2 ^ 7) (2 ^ 8)). lia.
Qed.

Lemma s8_congruent z : (s8 z - z) mod 2 ^ 8 = 0.
Proof.
  unfold s8.
  pose proof (Z.div_mod (z + 2 ^ 7) (2 ^ 8)) as E.
  replace ((z + 2 ^ 7) mod 2 ^ 8 - 2 ^ 7 - z)
    with (- ((z + 2 ^ 7) / 2 ^ 8) * 2 ^ 8) by lia.
  apply Z.mod_mul. lia.
Qed.

(** ** Loops *)

(** Settle a guard of the code, [true = guard] or [false = guard], from
    the arithmetic of the context. *)
Ltac settle_guard :=
  symmetry;
  repeat (apply andb_true_iff; split);
  first [apply Z.leb_le | apply Z.ltb_lt | apply Z.eqb_eq
        | apply Z.eqb_neq | apply Z.ltb_ge];
  lia.

Lemma bind_ret_r {A} (m : option A) : (x <- m ;; Some x) = m.
Proof. now destruct m. Qed.

Lemma iter_add {St} (n m : nat) (body : St -> option St) (s : St) :
  iter (n + m) body s = (s' <- iter n body s ;; iter m body s').
Proof.
  revert s. induction n as [|n IH]; intros s; simpl.
  - reflexivity.
  - destruct (body s) as [s1|]; simpl; [apply IH | reflexivity].
Qed.

Lemma iter_twice {St} (body body' : St -> option St) :
  (forall s, body' s = (s1 <- body s ;; body s1)) ->
  forall n s, iter n body' s = iter (2 * n) body s.
Proof.
  intros Hb. induction n as [|n IH]; intros s.
  - reflexivity.
  - replace (2 * S n)%nat with (S (S (2 * n))) by lia.
    cbn [iter]. rewrite Hb.
    destruct (body s) as [s1|]; cbn [bind]; [|reflexivity].
    destruct (body s1) as [s2|]; cbn [bind]; [apply IH | reflexivity].
Qed.

(** A property of the loop state that every pass keeps holds at the exit. *)
Lemma iter_invariant {St} (P : St -> Prop) (body : St -> option St) :
  (forall s s', P s -> body s = Some s' -> P s') ->
  forall n s s', P s -> iter n body s = Some s' -> P s'.
Proof.
  intros Hb. induction n as [|n IH]; intros s s' Hs; simpl.
  - now intros [= <-].
  - destruct (body s) as [s1|] eqn:E; simpl; [|discriminate].
    apply IH. eapply Hb; eauto.
Qed.

(** ** Memory *)

Lemma load_skipn mem p :
  0 <= p < Z.of_nat (length mem) ->
  exists x, load mem p = Some x
            /\ skipn (Z.to_nat p) mem = x :: skipn (Z.to_nat (p + 1)) mem.
Proof.
  intros Hp. unfold load.
  destruct (p <? 0) eqn:E; [apply Z.ltb_lt in E; lia|].
  replace (Z.to_nat (p + 1)) with (S (Z.to_nat p)) by lia.
  assert (Hn : (Z.to_nat p < length mem)%nat) by lia.
  clear E Hp. revert mem Hn.
  induction (Z.to_nat p) as [|n IH]; intros [|y mem] Hn; simpl in *; try lia.
  - eauto.
  - apply IH. lia.
Qed.

(** ** The single-core kernel *)

Module RmsFacts.
Import Rms.

Lemma body2_is_body1_twice mem fracBits st :
  body2 mem fracBits st = (st1 <- body1 mem fracBits st ;; body1 mem fracBits st1).
Proof.
  destruct st as [p a]. unfold body2, body1, asr32.
  destruct (load mem p) as [x|]; cbn [bind]; [|reflexivity].
  destruct ((0 <=? fracBits) && (fracBits <? 32)); cbn [bind];
    destruct (load mem (p + 1)); reflexivity.
Qed.

Lemma loop_unrolled_simple mem pSrc blockSize fracBits :
  0 <= blockSize ->
  loop_unrolled mem pSrc blockSize fracBits = loop_simple mem pSrc blockSize fracBits.
Proof.
  intros Hb. unfold loop_unrolled, loop_simple.
  rewrite (iter_twice (body1 mem fracBits) (body2 mem fracBits))
    by apply body2_is_body1_twice.
  rewrite Z.shiftr_div_pow2 by lia. change (2 ^ 1) with 2.
  pose proof (Z.div_mod blockSize 2 ltac:(lia)) as E.
  pose proof (Z.mod_pos_bound blockSize 2 ltac:(lia)) as R.
  assert (H2 : 0 <= blockSize / 2) by (apply Z.div_pos; lia).
  destruct (blockSize mod 2 =? 1) eqn:Odd.
  - apply Z.eqb_eq in Odd.
    replace (Z.to_nat blockSize) with (2 * Z.to_nat (blockSize / 2) + 1)%nat by lia.
    rewrite iter_add.
    destruct (iter _ _ _) as [st|]; cbn [bind iter]; [|reflexivity].
    now rewrite bind_ret_r.
  - apply Z.eqb_neq in Odd.
    replace (Z.to_nat blockSize) with (2 * Z.to_nat (blockSize / 2))%nat by lia.
    now rewrite bind_ret_r.
Qed.

Lemma loop_any_simple unroll mem pSrc blockSize fracBits :
  0 <= blockSize ->
  loop unroll mem pSrc blockSize fracBits = loop_simple mem pSrc blockSize fracBits.
Proof.
  intros Hb. destruct unroll; [apply loop_unrolled_simple, Hb | reflexivity].
Qed.

Lemma square_int8 x : int8 x -> s32 (x * x) = x * x /\ 0 <= x * x <= 2 ^ 14.
Proof.
  unfold int8, INT8_MIN, INT8_MAX. intros H.
  assert (0 <= x * x <= 2 ^ 14) by nia.
  split; [apply s32_small; lia | assumption].
Qed.

Lemma load_In mem p x : load mem p = Some x -> In x mem.
Proof.
  unfold load. destruct (p <? 0); [discriminate|]. apply nth_error_In.
Qed.

Lemma loop_simple_value n : forall mem fracBits p a,
  Forall int8 mem ->
  0 <= fracBits < 32 ->
  0 <= p ->
  p + Z.of_nat n <= Z.of_nat (length mem) ->
  - 2 ^ 31 <= a < 2 ^ 31 ->
  iter n (body1 mem fracBits) (p, a)
  = Some (p + Z.of_nat n,
          s32 (a + Spec.sum (map (Spec.term fracBits)
                               (firstn n (skipn (Z.to_nat p) mem))))).
Proof.
  induction n as [|n IH]; intros mem fracBits p a Hmem Hf Hp Hn Ha.
  - cbn [iter firstn map Spec.sum fold_right].
    rewrite !Z.add_0_r, s32_small by assumption. reflexivity.
  - destruct (load_skipn mem p ltac:(lia)) as (x & Hx & Hskip).
    cbn [iter]. unfold body1 at 1. rewrite Hx. cbn [bind].
    assert (Ix : int8 x).
    { eapply Forall_forall; [exact Hmem | eapply load_In; eassumption]. }
    destruct (square_int8 x Ix) as [-> _].
    unfold asr32.
    replace ((0 <=? fracBits) && (fracBits <? 32)) with true by settle_guard.
    cbn [bind].
    rewrite IH; try assumption; try lia; [|apply s32_range].
    rewrite Hskip. cbn [firstn map Spec.sum fold_right].
    fold (Spec.sum (map (Spec.term fracBits)
                      (firstn n (skipn (Z.to_nat (p + 1)) mem)))).
    fold (Spec.term fracBits x).
    rewrite s32_add_l, Z.add_assoc. do 2 f_equal. lia.
Qed.

(** The kernel on a valid block, in either build: the 32-bit sum is
    divided as an unsigned number. *)
Lemma rms_kernel_value unroll mem pSrc blockSize fracBits :
  Forall int8 mem ->
  0 <= fracBits < 32 ->
  0 <= pSrc ->
  1 <= blockSize ->
  pSrc + blockSize <= Z.of_nat (length mem) ->
  plp_rms_q8s_rv32im unroll mem pSrc blockSize fracBits
  = Some (s8 (u32 (Spec.accu fracBits (Spec.slice mem pSrc blockSize))
              / blockSize)).
Proof.
  intros Hmem Hf Hp Hb Hlen. unfold plp_rms_q8s_rv32im.
  rewrite loop_any_simple by lia.
  unfold loop_simple. rewrite loop_simple_value; try assumption; try lia.
  cbn [bind snd]. unfold finish, divu32.
  destruct (blockSize =? 0) eqn:E; [apply Z.eqb_eq in E; lia|].
  reflexivity.
Qed.

Lemma Forall_firstn {A} (P : A -> Prop) n : forall l,
  Forall P l -> Forall P (firstn n l).
Proof.
  induction n as [|n IH]; intros [|x l] H; cbn [firstn]; auto.
  inversion H; subst. constructor; auto.
Qed.

Lemma Forall_skipn {A} (P : A -> Prop) n : forall l,
  Forall P l -> Forall P (skipn n l).
Proof.
  induction n as [|n IH]; intros [|x l] H; cbn [skipn]; auto.
  inversion H; subst. auto.
Qed.

Lemma slice_int8 mem p len : Forall int8 mem -> Forall int8 (Spec.slice mem p len).
Proof.
  intros H. unfold Spec.slice. now apply Forall_firstn, Forall_skipn.
Qed.

Lemma slice_length mem p len :
  0 <= p -> 0 <= len -> p + len <= Z.of_nat (length mem) ->
  Z.of_nat (length (Spec.slice mem p len)) = len.
Proof.
  intros Hp Hl Hb. unfold Spec.slice.
  rewrite length_firstn, length_skipn. lia.
Qed.

Lemma term_bounds fracBits x :
  0 <= fracBits -> int8 x -> 0 <= Spec.term fracBits x <= 2 ^ 14.
Proof.
  intros Hf Hx. destruct (square_int8 x Hx) as [_ Hsq].
  unfold Spec.term. rewrite Z.shiftr_div_pow2 by assumption.
  assert (0 < 2 ^ fracBits) by (apply Z.pow_pos_nonneg; lia).
  split.
  - apply Z.div_pos; lia.
  - apply Z.div_le_upper_bound; nia.
Qed.

(** The exact sum of the shifted squares is at most [2^14] a sample. *)
Lemma sum_bounds fracBits xs :
  0 <= fracBits -> Forall int8 xs ->
  0 <= Spec.sum (map (Spec.term fracBits) xs) <= 2 ^ 14 * Z.of_nat (length xs).
Proof.
  intros Hf. induction 1 as [|x xs Hx _ IH].
  - cbn. lia.
  - cbn [map Spec.sum fold_right length].
    fold (Spec.sum (map (Spec.term fracBits) xs)).
    pose proof (term_bounds fracBits x Hf Hx). lia.
Qed.

(** A non-negative accumulator divides the same signed or unsigned. *)
Lemma finish_nonneg accu blockSize :
  0 <= accu < 2 ^ 31 -> 1 <= blockSize ->
  u32 accu / blockSize = Z.quot accu blockSize.
Proof.
  intros Ha Hb. rewrite u32_small by lia.
  symmetry. apply Z.quot_div_nonneg; lia.
Qed.

Lemma loop_accu_range unroll mem pSrc blockSize fracBits st :
  0 <= blockSize ->
  loop unroll mem pSrc blockSize fracBits = Some st ->
  - 2 ^ 31 <= snd st < 2 ^ 31.
Proof.
  intros Hb. rewrite loop_any_simple by assumption. unfold loop_simple.
  apply (iter_invariant (fun st => - 2 ^ 31 <= snd st < 2 ^ 31)); [|cbn; lia].
  intros [p a] s' _. unfold body1.
  destruct (load mem p) as [x|]; cbn [bind]; [|discriminate].
  destruct (asr32 _ _) as [t|]; cbn [bind]; [|discriminate].
  intros [= <-]. apply s32_range.
Qed.

End RmsFacts.

(** ** The cluster side *)

Module ClusterFacts.
Import Cluster.

Lemma load_middle (pre : list Z) x post :
  load (pre ++ x :: post) (Z.of_nat (length pre)) = Some x.
Proof.
  unfold load.
  destruct (Z.of_nat (length pre) <? 0) eqn:E; [apply Z.ltb_lt in E; lia|].
  rewrite Nat2Z.id. rewrite nth_error_app2 by lia.
  now rewrite Nat.sub_diag.
Qed.

Lemma update_middle (pre : list Z) x post v :
  update (pre ++ x :: post) (length pre) v = pre ++ v :: post.
Proof.
  induction pre as [|y pre IH]; cbn [app length update].
  - reflexivity.
  - now rewrite IH.
Qed.

Lemma store_middle (pre : list Z) x post v :
  store (pre ++ x :: post) (Z.of_nat (length pre)) v = Some (pre ++ v :: post).
Proof.
  unfold store.
  replace ((0 <=? Z.of_nat (length pre))
           && (Z.of_nat (length pre) <? Z.of_nat (length (pre ++ x :: post))))
    with true.
  - now rewrite Nat2Z.id, update_middle.
  - rewrite length_app. cbn [length]. settle_guard.
Qed.

(** Enter the else branch of the dispatcher, from [Hctx : rt_cluster_id rt
    <> ARCHI_FC_CID rt]. *)
Ltac cluster_branch :=
  unfold plp_rms_q8_parallel;
  match goal with
  | |- context [rt_cluster_id ?rt =? ARCHI_FC_CID ?rt] =>
      let E := fresh "E" in
      destruct (rt_cluster_id rt =? ARCHI_FC_CID rt) eqn:E;
      [apply Z.eqb_eq in E; contradiction|]
  end.

Section Team.
Variable kernel : list Z -> Z -> Z -> Z -> option Z.
Variable mem : list Z.

(** A team whose descriptor points into the scratch block fills the
    slots of its cores with their partial results, and changes nothing
    else. *)
Lemma run_team_scratch S : pRes S = Scratch ->
  forall ps pre junk post m,
    Forall2 (fun core_id p => partial kernel mem S core_id = Some p)
            (cores (length junk) (Z.of_nat (length pre))) ps ->
    cl_data m = pre ++ junk ++ post ->
    run_team (length junk) (Z.of_nat (length pre))
             (plp_rms_q8p_xpulpv2 kernel mem S) m
    = Some (set_cl_data (pre ++ ps ++ post) m).
Proof.
  intros HS ps. induction ps as [|p ps IH]; intros pre junk post m Hps Hm.
  - destruct junk as [|j junk]; [|inversion Hps].
    cbn [length run_team app]. cbn [app] in Hm. rewrite <- Hm.
    now destruct m.
  - destruct junk as [|j junk]; [inversion Hps|].
    cbn [length cores] in Hps. inversion Hps as [|? ? ? ? Hp Hrest]; subst.
    cbn [length run_team]. unfold plp_rms_q8p_xpulpv2 at 1.
    rewrite Hp, HS. cbn [bind assign]. rewrite Hm. cbn [app].
    rewrite store_middle. cbn [bind].
    replace (Z.of_nat (length pre) + 1)
      with (Z.of_nat (length (pre ++ [p]))) in *
      by (rewrite length_app; cbn [length]; lia).
    rewrite (IH (pre ++ [p]) junk post); cbn [cl_data set_cl_data].
    + rewrite <- !app_assoc. reflexivity.
    + exact Hrest.
    + now rewrite <- app_assoc.
Qed.

(** The collecting loop over slots that hold [xs]. *)
Lemma collect_sum m : resultsBuffer m = Scratch ->
  forall xs pre post a,
    cl_data m = pre ++ xs ++ post ->
    Z.of_nat (length pre + length xs) <= 255 ->
    - 2 ^ 31 <= a < 2 ^ 31 ->
    iter (length xs) (collect m) (Z.of_nat (length pre), a)
    = Some (Z.of_nat (length pre + length xs), s32 (a + Spec.sum xs)).
Proof.
  intros Hbuf xs. induction xs as [|x xs IH]; intros pre post a Hm Hlen Ha.
  - cbn [length iter Spec.sum fold_right].
    rewrite Nat.add_0_r, Z.add_0_r, s32_small by assumption. reflexivity.
  - cbn [length iter]. unfold collect at 1. rewrite Hbuf. cbn [fetch].
    rewrite Hm. cbn [app]. rewrite load_middle. cbn [bind].
    cbn [length] in Hlen.
    rewrite Z.mod_small by lia.
    replace (Z.of_nat (length pre) + 1)
      with (Z.of_nat (length (pre ++ [x])))
      by (rewrite length_app; cbn [length]; lia).
    rewrite (IH (pre ++ [x]) post).
    + rewrite length_app. cbn [length Spec.sum fold_right].
      fold (Spec.sum xs). rewrite s32_add_l, Z.add_assoc.
      do 3 f_equal. lia.
    + now rewrite <- app_assoc.
    + rewrite length_app. cbn [length]. lia.
    + apply s32_range.
Qed.

End Team.

Lemma cores_length n : forall first, length (cores n first) = n.
Proof. induction n as [|n IH]; intros first; cbn; [|rewrite IH]; reflexivity. Qed.

Lemma sum_int8_bounds ps :
  Forall int8 ps ->
  -128 * Z.of_nat (length ps) <= Spec.sum ps <= 127 * Z.of_nat (length ps).
Proof.
  induction 1 as [|p ps Hp _ IH]; cbn [Spec.sum fold_right length].
  - lia.
  - fold (Spec.sum ps). unfold int8, INT8_MIN, INT8_MAX in Hp. lia.
Qed.

(** The truncated mean of [n] values of [int8_t] is a value of [int8_t]. *)
Lemma mean_int8 s n :
  1 <= n -> -128 * n <= s <= 127 * n -> -128 <= Z.quot s n <= 127.
Proof.
  intros Hn Hs.
  destruct (Z_lt_le_dec s 0) as [Hneg|Hpos].
  - pose proof (Z.quot_opp_l (- s) n ltac:(lia)) as E.
    rewrite Z.opp_involutive in E. rewrite E.
    rewrite Z.quot_div_nonneg by lia.
    assert (0 <= - s / n) by (apply Z.div_pos; lia).
    assert (- s / n <= 128) by (apply Z.div_le_upper_bound; lia).
    lia.
  - rewrite Z.quot_div_nonneg by lia.
    assert (0 <= s / n) by (apply Z.div_pos; lia).
    assert (s / n <= 127) by (apply Z.div_le_upper_bound; lia).
    lia.
Qed.

(** The dispatcher on the cluster side with more than one core: the
    machine it leaves when the allocation succeeds and every worker is
    defined. *)
Lemma parallel_many kernel mem rt pSrc blockSize fracBits nPE m ps :
  rt_cluster_id rt <> ARCHI_FC_CID rt ->
  1 < nPE <= 255 ->
  rt_alloc_ok rt nPE = true ->
  Forall2 (fun core_id p =>
             partial kernel mem
               {| Cluster.pSrc := pSrc; Cluster.blockSize := blockSize;
                  Cluster.fracBits := fracBits; pRes := Scratch; nPE := nPE |}
               core_id = Some p)
          (cores (Z.to_nat nPE) 0) ps ->
  plp_rms_q8_parallel kernel mem rt pSrc blockSize fracBits nPE m
  = Some {| console := console m;
            result := s8 (Z.quot (s32 (Spec.sum ps)) nPE);
            cl_data := ps;
            resultsBuffer := Scratch;
            allocs := allocs m ++ [nPE];
            teams := teams m ++ [nPE] |}.
Proof.
  intros Hctx Hn Hok Hps. cluster_branch.
  replace (1 <? nPE) with true by settle_guard.
  unfold rt_alloc. rewrite Hok.
  cbn [set_resultsBuffer resultsBuffer console result cl_data allocs teams].
  set (junk := map (cl_junk rt) (seq 0 (Z.to_nat nPE))).
  assert (Hj : length junk = Z.to_nat nPE)
    by (unfold junk; now rewrite length_map, length_seq).
  assert (Hl : length ps = Z.to_nat nPE).
  { apply Forall2_length in Hps. now rewrite cores_length in Hps. }
  unfold rt_team_fork.
  cbn [set_resultsBuffer resultsBuffer console result cl_data allocs teams].
  rewrite <- Hj in Hps |- * at 1.
  change 0 with (Z.of_nat (length (@nil Z))) in Hps |- * at 1.
  rewrite (run_team_scratch kernel mem
             {| Cluster.pSrc := pSrc; Cluster.blockSize := blockSize;
                Cluster.fracBits := fracBits; pRes := Scratch; nPE := nPE |}
             eq_refl ps [] junk []);
    [| exact Hps | cbn [cl_data app]; now rewrite app_nil_r].
  cbn [bind app]. unfold set_cl_data.
  cbn [console result cl_data resultsBuffer allocs teams].
  rewrite app_nil_r, <- Hl.
  change (0, 0) with (Z.of_nat (length (@nil Z)), 0).
  rewrite (collect_sum
             {| console := console m; result := result m; cl_data := ps;
                resultsBuffer := Scratch; allocs := allocs m ++ [nPE];
                teams := teams m ++ [nPE] |}
             eq_refl ps [] []);
    [| cbn [cl_data app]; now rewrite app_nil_r
     | cbn [length]; lia
     | lia].
  cbn [bind snd length Nat.add]. rewrite Z.add_0_l.
  unfold divs32.
  replace ((nPE =? 0) || ((s32 (Spec.sum ps) =? - 2 ^ 31) && (nPE =? -1)))
    with false.
  - reflexivity.
  - symmetry. apply orb_false_iff. split.
    + apply Z.eqb_neq. lia.
    + apply andb_false_iff. right. apply Z.eqb_neq. lia.
Qed.

(** With one core the slice is the whole block. *)
Lemma slice_single pSrc blockSize fracBits pRes :
  0 <= blockSize < 2 ^ 32 ->
  slice {| Cluster.pSrc := pSrc; Cluster.blockSize := blockSize;
           Cluster.fracBits := fracBits; pRes := pRes; nPE := 1 |} 0
  = Some (pSrc, blockSize).
Proof.
  intros Hb. unfold slice, divu32, remu32.
  cbn [Cluster.blockSize Cluster.nPE Cluster.pSrc Z.eqb Z.sub Z.add Z.opp
       Z.pos_sub bind].
  replace (blockSize + 1 - 1) with blockSize by lia.
  rewrite (u32_small blockSize) by assumption.
  rewrite Z.mod_1_r, Z.div_1_r. cbn [Z.eqb bind Z.mul].
  now rewrite (u32_small 0), Z.add_0_r by lia.
Qed.

(** The dispatcher on the cluster side with one core. *)
Lemma parallel_one kernel mem rt pSrc blockSize fracBits m :
  rt_cluster_id rt <> ARCHI_FC_CID rt ->
  plp_rms_q8_parallel kernel mem rt pSrc blockSize fracBits 1 m
  = (v <- partial kernel mem
            {| Cluster.pSrc := pSrc; Cluster.blockSize := blockSize;
               Cluster.fracBits := fracBits; pRes := Caller; nPE := 1 |} 0 ;;
     Some {| console := console m; result := v; cl_data := cl_data m;
             resultsBuffer := Caller; allocs := allocs m;
             teams := teams m ++ [1] |}).
Proof.
  intros Hctx. cluster_branch.
  cbn [Z.ltb Z.compare Pos.compare Pos.compare_cont].
  unfold rt_team_fork, set_resultsBuffer.
  cbn [Z.to_nat console result cl_data resultsBuffer allocs teams].
  change (Pos.to_nat 1) with 1%nat.
  cbn [run_team]. unfold plp_rms_q8p_xpulpv2. cbn [pRes].
  destruct (partial _ _ _ _) as [v|]; reflexivity.
Qed.

Lemma assign_console p off v m m' :
  assign p off v m = Some m' -> console m' = console m.
Proof.
  destruct p; cbn [assign]; try discriminate.
  - destruct (off =? 0); [|discriminate]. now intros [= <-].
  - destruct (store _ _ _); cbn [bind]; [|discriminate]. now intros [= <-].
Qed.

Lemma run_team_console entry :
  (forall c m m', entry c m = Some m' -> console m' = console m) ->
  forall n first m m',
    run_team n first entry m = Some m' -> console m' = console m.
Proof.
  intros He. induction n as [|n IH]; intros first m m'; cbn [run_team].
  - now intros [= <-].
  - destruct (entry first m) as [m1|] eqn:E; cbn [bind]; [|discriminate].
    intros H. rewrite (IH _ _ _ H). eapply He; eassumption.
Qed.

(** On the cluster side a call that returns has printed nothing. *)
Lemma cluster_side_silent kernel mem rt pSrc blockSize fracBits nPE m m' :
  rt_cluster_id rt <> ARCHI_FC_CID rt ->
  plp_rms_q8_parallel kernel mem rt pSrc blockSize fracBits nPE m = Some m' ->
  console m' = console m.
Proof.
  intros Hctx. cluster_branch.
  set (m1 := if 1 <? nPE then _ else _).
  assert (H1 : console m1 = console m).
  { unfold m1, rt_alloc.
    destruct (1 <? nPE); [destruct (rt_alloc_ok rt nPE)|]; reflexivity. }
  destruct (rt_team_fork _ _ _) as [m2|] eqn:Hfork; cbn [bind]; [|discriminate].
  assert (H2 : console m2 = console m).
  { unfold rt_team_fork in Hfork.
    apply run_team_console in Hfork; [rewrite Hfork; exact H1|].
    intros c x x'. unfold plp_rms_q8p_xpulpv2.
    destruct (partial _ _ _ _); cbn [bind]; [|discriminate].
    apply assign_console. }
  destruct (1 <? nPE).
  - destruct (iter _ _ _); cbn [bind]; [|discriminate].
    destruct (divs32 _ _); cbn [bind]; [|discriminate].
    intros H. apply assign_console in H. congruence.
  - destruct (fetch _ _ _); cbn [bind]; [|discriminate].
    intros H. apply assign_console in H. congruence.
Qed.

(** A team with a core whose worker is undefined is undefined. *)
Lemma run_team_undefined entry c :
  (forall m, entry c m = None) ->
  forall n first m,
    first <= c < first + Z.of_nat n ->
    run_team n first entry m = None.
Proof.
  intros Hc. induction n as [|n IH]; intros first m Hr; [lia|].
  cbn [run_team].
  destruct (Z.eq_dec first c) as [->|Hne]; [now rewrite Hc|].
  destruct (entry first m) as [m1|]; cbn [bind]; [|reflexivity].
  apply IH. lia.
Qed.

(** More cores than samples: one sample a slice, also past the end of
    the vector, and an empty slice for the last core. *)
Lemma slice_more_cores pSrc blockSize fracBits pRes nPE :
  1 <= blockSize < nPE ->
  nPE <= 255 ->
  (forall core_id,
      0 <= core_id < nPE - 1 ->
      slice {| Cluster.pSrc := pSrc; Cluster.blockSize := blockSize;
               Cluster.fracBits := fracBits; pRes := pRes; nPE := nPE |} core_id
      = Some (pSrc + core_id, 1))
  /\ slice {| Cluster.pSrc := pSrc; Cluster.blockSize := blockSize;
              Cluster.fracBits := fracBits; pRes := pRes; nPE := nPE |} (nPE - 1)
     = Some (pSrc + (nPE - 1), 0).
Proof.
  intros Hb Hn.
  assert (EP : (blockSize + nPE - 1) / nPE = 1).
  { symmetry. apply (Z.div_unique _ _ 1 (blockSize - 1)); lia. }
  assert (Eu : u32 (blockSize + nPE - 1) = blockSize + nPE - 1)
    by (apply u32_small; lia).
  assert (En : false = (nPE =? 0)) by settle_guard.
  split.
  - intros c Hc. unfold slice, divu32.
    cbn [Cluster.blockSize Cluster.nPE Cluster.pSrc].
    rewrite Eu, <- En, EP. cbn [bind].
    replace (c =? nPE - 1) with false by settle_guard.
    cbn [bind]. rewrite Z.mul_1_r, u32_small by lia. reflexivity.
  - unfold slice, divu32, remu32.
    cbn [Cluster.blockSize Cluster.nPE Cluster.pSrc].
    rewrite Eu, <- En, EP, Z.eqb_refl. cbn [bind].
    rewrite (Z.mod_small blockSize nPE) by lia.
    replace (blockSize =? 0) with false by settle_guard.
    cbn [Z.eqb bind]. rewrite Z.mod_1_r, Z.mul_1_r, u32_small by lia.
    reflexivity.
Qed.

(** The slices need not cover the block when [nPE <= blockSize] either:
    five samples on four cores make core 2 read offset 5 and core 3 offset
    6, nine samples on four cores leave the last core an empty slice. *)
Example slice_gaps :
  map (slice {| Cluster.pSrc := 0; Cluster.blockSize := 5;
                Cluster.fracBits := 0; pRes := Scratch; nPE := 4 |})
      [0; 1; 2; 3]
  = [Some (0, 2); Some (2, 2); Some (4, 2); Some (6, 1)]
  /\ map (slice {| Cluster.pSrc := 0; Cluster.blockSize := 9;
                   Cluster.fracBits := 0; pRes := Scratch; nPE := 4 |})
         [0; 1; 2; 3]
     = [Some (0, 3); Some (3, 3); Some (6, 3); Some (9, 0)].
Proof. split; reflexivity. Qed.

End ClusterFacts.

(** ** The complex conjugate *)

Module ConjFacts.
Import Conj ClusterFacts.

Lemma conj_imag_int8 x : int8 x -> int8 (Spec.conj_imag x).
Proof.
  unfold int8, Spec.conj_imag, INT8_MIN, INT8_MAX. intros H.
  destruct (x =? -128) eqn:E; [lia|]. apply Z.eqb_neq in E. lia.
Qed.

Lemma conj_from_length xs : forall real,
  length (Spec.conj_from real xs) = length xs.
Proof.
  induction xs as [|x xs IH]; intros real; cbn [Spec.conj_from length];
    [|rewrite IH]; reflexivity.
Qed.

Lemma conj_from_int8 xs : forall real,
  Forall int8 xs -> Forall int8 (Spec.conj_from real xs).
Proof.
  induction xs as [|x xs IH]; intros real H; cbn [Spec.conj_from].
  - constructor.
  - inversion H; subst. constructor; [|now apply IH].
    destruct real; [assumption | now apply conj_imag_int8].
Qed.

(** Element [k] of a conjugate: kept at the real parts, [conj_imag] at
    the imaginary parts. *)
Lemma conj_from_nth xs : forall real k,
  (k < length xs)%nat ->
  nth k (Spec.conj_from real xs) 0
  = if Bool.eqb real (Nat.even k)
    then nth k xs 0
    else Spec.conj_imag (nth k xs 0).
Proof.
  induction xs as [|x xs IH]; intros real k Hk; cbn [length] in Hk; [lia|].
  destruct k as [|k]; cbn [Spec.conj_from nth].
  - now destruct real.
  - rewrite IH by lia. rewrite Nat.even_succ, <- Nat.negb_even.
    now destruct real, (Nat.even k).
Qed.

(** The loop over the samples [xs], from a real or an imaginary part. *)
Lemma conj_loop_value xs : forall pre post dpre junk dpost (real : bool),
  Forall int8 xs ->
  length junk = length xs ->
  exists st,
    iter (length xs) (body (pre ++ xs ++ post))
         {| pSrc := Z.of_nat (length pre); pDst := Z.of_nat (length dpre);
            dst := dpre ++ junk ++ dpost;
            sign := if real then 1 else -1 |}
    = Some st
    /\ dst st = dpre ++ Spec.conj_from real xs ++ dpost.
Proof.
  induction xs as [|x xs IH]; intros pre post dpre junk dpost real Hxs Hj.
  - destruct junk; [|discriminate]. eexists. split; reflexivity.
  - destruct junk as [|j junk]; [discriminate|].
    inversion Hxs as [|? ? Hx Hrest]; subst.
    cbn [length iter]. unfold body at 1. cbn [pSrc pDst dst sign app].
    rewrite load_middle.
    set (v := if real then x else Spec.conj_imag x).
    assert (Ev : (if (if real then 1 else -1) =? 1
                  then Some x
                  else in_ <- Some x ;;
                       Some (if in_ =? INT8_MIN then INT8_MAX else s8 (- in_)))
                 = Some v).
    { unfold v, Spec.conj_imag. destruct real; cbn [Z.eqb bind]; [reflexivity|].
      destruct (x =? INT8_MIN) eqn:E; [reflexivity|].
      apply Z.eqb_neq in E. unfold int8, INT8_MIN, INT8_MAX in *.
      rewrite s8_small by lia. reflexivity. }
    rewrite Ev. cbn [bind]. rewrite store_middle. cbn [bind].
    replace (s8 ((if real then 1 else -1) * -1))
      with (if negb real then 1 else -1) by (now destruct real).
    replace (Z.of_nat (length pre) + 1) with (Z.of_nat (length (pre ++ [x])))
      by (rewrite length_app; cbn [length]; lia).
    replace (Z.of_nat (length dpre) + 1) with (Z.of_nat (length (dpre ++ [v])))
      by (rewrite length_app; cbn [length]; lia).
    replace (pre ++ x :: xs ++ post) with ((pre ++ [x]) ++ xs ++ post)
      by (now rewrite <- app_assoc).
    replace (dpre ++ v :: junk ++ dpost) with ((dpre ++ [v]) ++ junk ++ dpost)
      by (now rewrite <- app_assoc).
    destruct (IH (pre ++ [x]) post (dpre ++ [v]) junk dpost (negb real) Hrest)
      as (st & Hst & Hdst); [now injection Hj|].
    exists st. split; [exact Hst|].
    rewrite Hdst, <- app_assoc. reflexivity.
Qed.

(** The destination vector after the kernel. *)
Lemma conj_kernel_value mem dst0 numSamples :
  Forall int8 (firstn (Z.to_nat (2 * numSamples)) mem) ->
  0 <= numSamples ->
  2 * numSamples <= Z.of_nat (length mem) ->
  2 * numSamples <= Z.of_nat (length dst0) ->
  2 * numSamples < 2 ^ 32 ->
  plp_cmplx_conj_i8_rv32im mem dst0 numSamples
  = Some (Spec.conj_from true (firstn (Z.to_nat (2 * numSamples)) mem)
          ++ skipn (Z.to_nat (2 * numSamples)) dst0).
Proof.
  intros Hmem Hn Hlm Hld Hfit. unfold plp_cmplx_conj_i8_rv32im.
  rewrite u32_small by lia.
  set (n := Z.to_nat (2 * numSamples)) in *.
  assert (Hxs : length (firstn n mem) = n) by (rewrite length_firstn; lia).
  assert (Hjs : length (firstn n dst0) = n) by (rewrite length_firstn; lia).
  destruct (conj_loop_value (firstn n mem) [] (skipn n mem) [] (firstn n dst0)
              (skipn n dst0) true Hmem)
    as (st & Hst & Hdst); [congruence|].
  cbn [app length Z.of_nat] in Hst.
  rewrite !firstn_skipn, Hxs in Hst.
  rewrite Hst. cbn [bind]. now rewrite Hdst.
Qed.

(** Indexing the destination vector after the kernel. *)
Lemma conj_kernel_nth mem dst0 numSamples out :
  Forall int8 (firstn (Z.to_nat (2 * numSamples)) mem) ->
  0 <= numSamples ->
  2 * numSamples <= Z.of_nat (length mem) ->
  2 * numSamples <= Z.of_nat (length dst0) ->
  2 * numSamples < 2 ^ 32 ->
  plp_cmplx_conj_i8_rv32im mem dst0 numSamples = Some out ->
  length out = length dst0
  /\ Forall int8 (firstn (Z.to_nat (2 * numSamples)) out)
  /\ (forall k, Z.of_nat k < numSamples ->
        nth (2 * k) out 0 = nth (2 * k) mem 0
        /\ nth (2 * k + 1) out 0 = Spec.conj_imag (nth (2 * k + 1) mem 0))
  /\ (forall j, 2 * numSamples <= Z.of_nat j -> nth j out 0 = nth j dst0 0).
Proof.
  intros Hmem Hn Hlm Hld Hfit Hrun.
  rewrite conj_kernel_value in Hrun by assumption.
  set (n := Z.to_nat (2 * numSamples)) in *.
  assert (Eout : out = Spec.conj_from true (firstn n mem) ++ skipn n dst0)
    by congruence.
  clear Hrun. subst out.
  assert (Hxs : length (firstn n mem) = n) by (rewrite length_firstn; lia).
  assert (Hcs : length (Spec.conj_from true (firstn n mem)) = n)
    by (now rewrite conj_from_length).
  assert (Hin : forall i, (i < n)%nat ->
             nth i (Spec.conj_from true (firstn n mem) ++ skipn n dst0) 0
             = if Bool.eqb true (Nat.even i)
               then nth i mem 0
               else Spec.conj_imag (nth i mem 0)).
  { intros i Hi. rewrite app_nth1, conj_from_nth by lia.
    rewrite nth_firstn.
    replace (i <? n)%nat with true by (symmetry; apply Nat.ltb_lt; lia).
    reflexivity. }
  split; [|split; [|split]].
  - rewrite length_app, Hcs, length_skipn. lia.
  - rewrite firstn_app, Hcs, Nat.sub_diag, firstn_O, app_nil_r.
    rewrite <- Hcs at 1. rewrite firstn_all. now apply conj_from_int8.
  - intros k Hk. rewrite !Hin by lia.
    replace (Nat.even (2 * k)) with true
      by (symmetry; rewrite Nat.even_mul; reflexivity).
    replace (Nat.even (2 * k + 1)) with false
      by (symmetry; rewrite Nat.add_comm, Nat.even_add_mul_2; reflexivity).
    split; reflexivity.
  - intros j Hj. rewrite app_nth2 by lia. rewrite nth_skipn, Hcs.
    f_equal. lia.
Qed.

End ConjFacts.

(** * The claims *)

Import Rms RmsFacts Cluster ClusterFacts Scenario.

(** C1 (amended).  On a block of [blockSize >= 1] samples of a vector of
    [int8_t] cells, with a shift count [fracBits] below 32, the kernel is
    defined in either build and stores the 32-bit accumulator, read as an
    unsigned number, divided by [blockSize] and narrowed to 8 bits.  When
    the accumulator is not negative, which holds for every block of at
    most 131071 samples, this is the contract's [accu / blockSize]
    truncated toward zero; with [fracBits = 0] it is the unscaled mean of
    the squares; and the eight-element vector of ones gives 1. *)
Theorem C1_rms_kernel_contract :
  (forall unroll mem pSrc blockSize fracBits,
      Forall int8 mem ->
      0 <= fracBits < 32 ->
      0 <= pSrc ->
      1 <= blockSize ->
      pSrc + blockSize <= Z.of_nat (length mem) ->
      plp_rms_q8s_rv32im unroll mem pSrc blockSize fracBits
      = Some (s8 (u32 (Spec.accu fracBits (Spec.slice mem pSrc blockSize))
                  / blockSize))
      /\ (0 <= Spec.accu fracBits (Spec.slice mem pSrc blockSize) ->
          plp_rms_q8s_rv32im unroll mem pSrc blockSize fracBits
          = Some (Spec.rms fracBits (Spec.slice mem pSrc blockSize)))
      /\ (blockSize <= 131071 ->
          plp_rms_q8s_rv32im unroll mem pSrc blockSize fracBits
          = Some (Spec.rms fracBits (Spec.slice mem pSrc blockSize)))
      /\ (blockSize <= 131071 -> fracBits = 0 ->
          plp_rms_q8s_rv32im unroll mem pSrc blockSize fracBits
          = Some (s8 (Z.quot
                        (Spec.sum (map (fun x => x * x)
                                     (Spec.slice mem pSrc blockSize)))
                        blockSize))))
  /\ plp_rms_q8s_rv32im false [1; 1; 1; 1; 1; 1; 1; 1] 0 8 0 = Some 1
  /\ plp_rms_q8s_rv32im true [1; 1; 1; 1; 1; 1; 1; 1] 0 8 0 = Some 1.
Proof.
  split; [|split; reflexivity].
  intros unroll mem pSrc blockSize fracBits Hmem Hf Hp Hb Hlen.
  pose proof (rms_kernel_value unroll mem pSrc blockSize fracBits Hmem Hf Hp Hb Hlen)
    as Hk.
  set (xs := Spec.slice mem pSrc blockSize) in *.
  assert (Hxs : Z.of_nat (length xs) = blockSize)
    by (apply slice_length; lia).
  assert (Hsigned : 0 <= Spec.accu fracBits xs ->
                    plp_rms_q8s_rv32im unroll mem pSrc blockSize fracBits
                    = Some (Spec.rms fracBits xs)).
  { intros Hacc. rewrite Hk. unfold Spec.rms. rewrite Hxs.
    rewrite finish_nonneg; [reflexivity | | assumption].
    pose proof (s32_range (Spec.sum (map (Spec.term fracBits) xs))).
    unfold Spec.accu in *. lia. }
  assert (Hsmall : blockSize <= 131071 ->
                   Spec.accu fracBits xs
                   = Spec.sum (map (Spec.term fracBits) xs)
                   /\ 0 <= Spec.accu fracBits xs).
  { intros Hle.
    pose proof (sum_bounds fracBits xs (proj1 Hf) (slice_int8 mem pSrc blockSize Hmem))
      as Hs.
    fold xs in Hs. rewrite Hxs in Hs.
    unfold Spec.accu. rewrite s32_small by lia. lia. }
  split; [|split; [|split]].
  - exact Hk.
  - exact Hsigned.
  - intros Hle. apply Hsigned, Hsmall, Hle.
  - intros Hle ->. destruct (Hsmall Hle) as [Hacc Hpos].
    rewrite (Hsigned Hpos). unfold Spec.rms. rewrite Hacc, Hxs.
    reflexivity.
Qed.

(** Scenario 1 of the specification, through [C1_rms_kernel_contract]. *)
Lemma C1_scenario_1 :
  Forall int8 [1; 1; 1; 1; 1; 1; 1; 1]
  /\ plp_rms_q8s_rv32im false [1; 1; 1; 1; 1; 1; 1; 1] 0 8 0
     = Some (Spec.rms 0 [1; 1; 1; 1; 1; 1; 1; 1])
  /\ Spec.rms 0 [1; 1; 1; 1; 1; 1; 1; 1] = 1.
Proof.
  assert (H8 : Forall int8 [1; 1; 1; 1; 1; 1; 1; 1])
    by (repeat constructor; unfold int8, INT8_MIN, INT8_MAX; lia).
  split; [exact H8 | split; [|reflexivity]].
  apply (proj1 C1_rms_kernel_contract false [1; 1; 1; 1; 1; 1; 1; 1] 0 8 0);
    cbn; try lia; exact H8.
Defined.

(** C1, as stated, fails on the code.  With [fracBits = 32] the shift of
    the first square is undefined, where the contract's value is 0.  With
    131073 samples equal to -128 and [fracBits = 0] the accumulator wraps to
    a negative number: the code divides it as an unsigned number and stores
    0, where the contract's signed quotient narrows to 1. *)
Lemma C1_counterexample :
  (plp_rms_q8s_rv32im false [1] 0 1 32 = None
   /\ plp_rms_q8s_rv32im true [1] 0 1 32 = None
   /\ Spec.rms 32 [1] = 0)
  /\ (plp_rms_q8s_rv32im false (repeat (-128) (Z.to_nat 131073)) 0 131073 0
      = Some 0
      /\ plp_rms_q8s_rv32im true (repeat (-128) (Z.to_nat 131073)) 0 131073 0
         = Some 0
      /\ Spec.accu 0 (repeat (-128) (Z.to_nat 131073)) = -2147467264
      /\ Spec.rms 0 (repeat (-128) (Z.to_nat 131073)) = 1).
Proof.
  split; [repeat split|].
  assert (Hk : forall unroll,
             plp_rms_q8s_rv32im unroll (repeat (-128) (Z.to_nat 131073)) 0 131073 0
             = Some 0).
  { intros unroll. rewrite rms_kernel_value.
    - vm_compute. reflexivity.
    - apply Forall_forall. intros x Hx. apply repeat_spec in Hx. subst x.
      unfold int8, INT8_MIN, INT8_MAX. lia.
    - lia.
    - lia.
    - lia.
    - rewrite repeat_length, Z2Nat.id; lia. }
  split; [apply Hk | split; [apply Hk | split; vm_compute; reflexivity]].
Qed.

(** C2.  On the cluster side with [nPE > 1], when the results buffer is
    allocated and every worker is defined, the dispatcher returns and the
    caller's cell holds the sum of the [nPE] partial results, accumulated
    in 32 bits, divided by [nPE] with truncation toward zero (for partial
    results in the [int8_t] range neither the accumulator nor the store
    wraps).  With [nPE = 1] the cell holds the one partial result, not
    divided again, and nothing is allocated.  On eight ones with
    [fracBits = 0] and [nPE = 2] both partial results are 1 and the cell
    holds 1. *)
Theorem C2_reduction_of_partials :
  (forall kernel mem rt pSrc blockSize fracBits nPE m ps,
      rt_cluster_id rt <> ARCHI_FC_CID rt ->
      1 < nPE <= 255 ->
      rt_alloc_ok rt nPE = true ->
      Forall2 (fun core_id p =>
                 partial kernel mem
                   {| pSrc := pSrc; blockSize := blockSize; fracBits := fracBits;
                      pRes := Scratch; nPE := nPE |} core_id = Some p)
              (cores (Z.to_nat nPE) 0) ps ->
      exists m',
        plp_rms_q8_parallel kernel mem rt pSrc blockSize fracBits nPE m = Some m'
        /\ result m' = s8 (Z.quot (s32 (Spec.sum ps)) nPE)
        /\ (Forall int8 ps -> result m' = Z.quot (Spec.sum ps) nPE))
  /\ (forall kernel mem rt pSrc blockSize fracBits m p,
        rt_cluster_id rt <> ARCHI_FC_CID rt ->
        partial kernel mem
          {| pSrc := pSrc; blockSize := blockSize; fracBits := fracBits;
             pRes := Caller; nPE := 1 |} 0 = Some p ->
        exists m',
          plp_rms_q8_parallel kernel mem rt pSrc blockSize fracBits 1 m = Some m'
          /\ result m' = p
          /\ allocs m' = allocs m)
  /\ (map (partial plp_rms_q8s_xpulpv2 ones
             {| pSrc := 0; blockSize := 8; fracBits := 0; pRes := Scratch;
                nPE := 2 |}) [0; 1]
      = [Some 1; Some 1]
      /\ option_map result
           (plp_rms_q8_parallel plp_rms_q8s_xpulpv2 ones cluster_side 0 8 0 2 before)
         = Some 1).
Proof.
  split; [|split; [|split; reflexivity]].
  - intros kernel mem rt pSrc0 b f n m ps Hctx Hn Hok Hps.
    eexists. split; [apply (parallel_many _ _ _ _ _ _ _ _ ps); assumption|].
    cbn [result]. split; [reflexivity|].
    intros H8. pose proof (sum_int8_bounds ps H8) as Hs.
    assert (Hl : Z.of_nat (length ps) = n).
    { apply Forall2_length in Hps. rewrite cores_length in Hps. lia. }
    rewrite Hl in Hs.
    rewrite s32_small by lia.
    apply s8_small, mean_int8; lia.
  - intros kernel mem rt pSrc0 b f m p Hctx Hp.
    rewrite parallel_one, Hp by assumption. cbn [bind].
    eexists. split; [reflexivity|]. split; reflexivity.
Qed.

(** Scenario 2 of the specification, through
    [C2_reduction_of_partials]. *)
Lemma C2_scenario_2 :
  (rt_cluster_id cluster_side <> ARCHI_FC_CID cluster_side
   /\ 1 < 2 <= 255
   /\ rt_alloc_ok cluster_side 2 = true)
  /\ exists m',
      plp_rms_q8_parallel plp_rms_q8s_xpulpv2 ones cluster_side 0 8 0 2 before
      = Some m'
      /\ result m' = s8 (Z.quot (s32 (Spec.sum [1; 1])) 2).
Proof.
  assert (Hctx : rt_cluster_id cluster_side <> ARCHI_FC_CID cluster_side)
    by (cbn; lia).
  split; [split; [exact Hctx | split; [lia | reflexivity]]|].
  destruct (proj1 C2_reduction_of_partials plp_rms_q8s_xpulpv2 ones cluster_side
              0 8 0 2 before [1; 1] Hctx ltac:(lia) eq_refl)
    as (m' & Hrun & Hres & _).
  - repeat constructor.
  - exists m'. split; assumption.
Defined.

(** C3.  For a descriptor with [blockSize >= 1] and [nPE >= 1] whose
    [uint32_t] sum [blockSize + nPE - 1] does not wrap (as for every vector
    that fits the address space next to its descriptor and results
    buffer), the worker gives core [core_id] the slice
    that starts at offset [core_id * blockSizeP], with [blockSizeP] the
    ceiling of [blockSize / nPE]; its length is [blockSizeP], except on the
    last core when [blockSize % nPE != 0], where it is
    [blockSize % blockSizeP].  When [blockSize % nPE == 0] every slice has
    [blockSize / nPE] elements.  For [blockSize = 7] and [nPE = 2], core 0
    owns 4 elements and core 1 owns 3. *)
Theorem C3_slice_partition :
  (forall pSrc blockSize fracBits pRes nPE core_id,
      1 <= blockSize ->
      1 <= nPE ->
      blockSize + nPE - 1 < 2 ^ 32 ->
      0 <= core_id < nPE ->
      exists blockSizeP,
        Spec.is_ceil blockSizeP blockSize nPE
        /\ slice {| pSrc := pSrc; blockSize := blockSize; fracBits := fracBits;
                    pRes := pRes; nPE := nPE |} core_id
           = Some (pSrc + core_id * blockSizeP,
                   if core_id =? nPE - 1
                   then if blockSize mod nPE =? 0
                        then blockSizeP
                        else blockSize mod blockSizeP
                   else blockSizeP)
        /\ (blockSize mod nPE = 0 ->
            slice {| pSrc := pSrc; blockSize := blockSize; fracBits := fracBits;
                     pRes := pRes; nPE := nPE |} core_id
            = Some (pSrc + core_id * (blockSize / nPE), blockSize / nPE)))
  /\ slice {| pSrc := 0; blockSize := 7; fracBits := 0; pRes := Scratch; nPE := 2 |} 0
     = Some (0, 4)
  /\ slice {| pSrc := 0; blockSize := 7; fracBits := 0; pRes := Scratch; nPE := 2 |} 1
     = Some (4, 3).
Proof.
  split; [|split; reflexivity].
  intros pSrc0 b f pRes0 n c Hb Hn Hfit Hc.
  set (P := (b + n - 1) / n).
  pose proof (Z.div_mod (b + n - 1) n ltac:(lia)) as Ediv.
  pose proof (Z.mod_pos_bound (b + n - 1) n ltac:(lia)) as Rdiv.
  fold P in Ediv.
  assert (Hceil : Spec.is_ceil P b n) by (unfold Spec.is_ceil; nia).
  assert (HP : 1 <= P) by (unfold Spec.is_ceil in Hceil; nia).
  assert (Hoff : 0 <= c * P < 2 ^ 32) by (unfold Spec.is_ceil in Hceil; nia).
  assert (Hslice :
            slice {| pSrc := pSrc0; blockSize := b; fracBits := f;
                     pRes := pRes0; nPE := n |} c
            = Some (pSrc0 + c * P,
                    if c =? n - 1
                    then if b mod n =? 0 then P else b mod P
                    else P)).
  { unfold slice, divu32, remu32. cbn [Cluster.blockSize Cluster.nPE Cluster.pSrc].
    rewrite (u32_small (b + n - 1)) by lia.
    destruct (n =? 0) eqn:En; [apply Z.eqb_eq in En; lia|].
    cbn [bind]. fold P. rewrite (u32_small (c * P)) by assumption.
    destruct (c =? n - 1); cbn [bind]; [|reflexivity].
    destruct (b mod n =? 0); cbn [bind]; [reflexivity|].
    destruct (P =? 0) eqn:EP; [apply Z.eqb_eq in EP; lia|].
    reflexivity. }
  exists P. split; [exact Hceil | split; [exact Hslice|]].
  intros Hmod. rewrite Hslice.
  assert (EP : P = b / n).
  { pose proof (Z.div_mod b n ltac:(lia)) as Eb. rewrite Hmod in Eb.
    unfold Spec.is_ceil in Hceil. nia. }
  rewrite <- EP.
  apply Z.eqb_eq in Hmod. rewrite Hmod.
  destruct (c =? n - 1); reflexivity.
Qed.

(** Scenario 3 of the specification: the last of two cores on seven
    samples. *)
Lemma C3_scenario_3 :
  (1 <= 7 /\ 1 <= 2 /\ 7 + 2 - 1 < 2 ^ 32 /\ 0 <= 1 < 2)
  /\ exists blockSizeP,
      Spec.is_ceil blockSizeP 7 2
      /\ slice {| pSrc := 0; blockSize := 7; fracBits := 0; pRes := Scratch;
                  nPE := 2 |} 1
         = Some (0 + 1 * blockSizeP, 7 mod blockSizeP).
Proof.
  split; [lia|].
  destruct (proj1 C3_slice_partition 0 7 0 Scratch 2 1
              ltac:(lia) ltac:(lia) ltac:(lia) ltac:(lia))
    as (P & Hceil & Hslice & _).
  exists P. split; [exact Hceil | exact Hslice].
Defined.

(** C4.  On the cluster side, for every vector, block size and shift
    count, the parallel entry point with [nPE = 1] leaves in the caller's
    cell what the single-core entry point leaves there, undefined
    behaviour included; wherever the single-core kernel is defined both
    return, with the kernel's value in the cell. *)
Theorem C4_one_core_is_single_core :
  forall kernel mem rt pSrc blockSize fracBits m,
    rt_cluster_id rt <> ARCHI_FC_CID rt ->
    0 <= blockSize < 2 ^ 32 ->
    option_map result
      (plp_rms_q8_parallel kernel mem rt pSrc blockSize fracBits 1 m)
    = option_map result (plp_rms_q8 kernel mem pSrc blockSize fracBits m)
    /\ (forall v,
          kernel mem pSrc blockSize fracBits = Some v ->
          exists m1 m2,
            plp_rms_q8_parallel kernel mem rt pSrc blockSize fracBits 1 m = Some m1
            /\ plp_rms_q8 kernel mem pSrc blockSize fracBits m = Some m2
            /\ result m1 = v
            /\ result m2 = v).
Proof.
  intros kernel mem rt pSrc0 b f m Hctx Hb.
  rewrite parallel_one by assumption.
  unfold partial, plp_rms_q8. rewrite slice_single by assumption.
  cbn [bind fracBits].
  split.
  - destruct (kernel mem pSrc0 b f); reflexivity.
  - intros v ->. cbn [bind assign Z.eqb].
    eexists. eexists. repeat (split; [reflexivity|]). reflexivity.
Qed.

(** Eight ones on one core of the cluster. *)
Lemma C4_witness :
  (rt_cluster_id cluster_side <> ARCHI_FC_CID cluster_side /\ 0 <= 8 < 2 ^ 32)
  /\ option_map result
       (plp_rms_q8_parallel plp_rms_q8s_xpulpv2 ones cluster_side 0 8 0 1 before)
     = option_map result (plp_rms_q8 plp_rms_q8s_xpulpv2 ones 0 8 0 before)
  /\ option_map result (plp_rms_q8 plp_rms_q8s_xpulpv2 ones 0 8 0 before) = Some 1.
Proof.
  assert (Hctx : rt_cluster_id cluster_side <> ARCHI_FC_CID cluster_side)
    by (cbn; lia).
  split; [split; [exact Hctx | lia]|].
  split; [|reflexivity].
  exact (proj1 (C4_one_core_is_single_core plp_rms_q8s_xpulpv2 ones cluster_side
                  0 8 0 before Hctx ltac:(lia))).
Defined.

(** C5 on the code.  With more cores than samples, [1 <= blockSize < nPE],
    the worker gives every core but the last a slice of one sample at
    offset [core_id], so the cores [blockSize, ..., nPE - 2] read past the
    end of the vector, and it gives the last core an empty slice, on which
    the kernel divides by zero; nothing rejects the call.  With a kernel
    that is undefined on an empty block, as [plp_rms_q8s_rv32im] is, every
    such call from the cluster side is undefined.  One sample on three
    cores: core 1 reads offset 1 of a one-element vector. *)
Theorem C5_more_cores_than_samples :
  (forall pSrc blockSize fracBits pRes nPE,
      1 <= blockSize < nPE ->
      nPE <= 255 ->
      (forall core_id,
          blockSize <= core_id < nPE - 1 ->
          slice {| pSrc := pSrc; blockSize := blockSize; fracBits := fracBits;
                   pRes := pRes; nPE := nPE |} core_id
          = Some (pSrc + core_id, 1))
      /\ slice {| pSrc := pSrc; blockSize := blockSize; fracBits := fracBits;
                  pRes := pRes; nPE := nPE |} (nPE - 1)
         = Some (pSrc + (nPE - 1), 0))
  /\ (forall mem rt pSrc blockSize fracBits nPE m,
        rt_cluster_id rt <> ARCHI_FC_CID rt ->
        1 <= blockSize < nPE ->
        nPE <= 255 ->
        plp_rms_q8_parallel plp_rms_q8s_xpulpv2 mem rt pSrc blockSize fracBits nPE m
        = None)
  /\ (map (slice {| pSrc := 0; blockSize := 1; fracBits := 0; pRes := Scratch;
                    nPE := 3 |}) [0; 1; 2]
      = [Some (0, 1); Some (1, 1); Some (2, 0)]
      /\ load [1] 1 = None
      /\ plp_rms_q8s_xpulpv2 [1] 1 1 0 = None
      /\ plp_rms_q8s_xpulpv2 [1] 2 0 0 = None
      /\ plp_rms_q8_parallel plp_rms_q8s_xpulpv2 [1] cluster_side 0 1 0 3 before
         = None).
Proof.
  split; [|split; [|repeat split]].
  - intros pSrc0 b f pRes0 n Hb Hn.
    destruct (slice_more_cores pSrc0 b f pRes0 n Hb Hn) as [Hmid Hlast].
    split; [|exact Hlast].
    intros c Hc. apply Hmid. lia.
  - intros mem rt pSrc0 b f n m Hctx Hb Hn.
    cluster_branch.
    set (m1 := if 1 <? n then _ else _).
    unfold rt_team_fork.
    rewrite (run_team_undefined _ (n - 1)); [reflexivity | | lia].
    intros x. unfold plp_rms_q8p_xpulpv2, partial.
    rewrite (proj2 (slice_more_cores pSrc0 b f (resultsBuffer m1) n Hb Hn)).
    reflexivity.
Qed.

(** C6 (amended).  No argument is checked and no error is reported for an
    empty block or for [nPE = 0]: from the cluster side no call of the
    parallel entry point is rejected, whatever its arguments, and a call
    that returns has printed nothing; the single-core kernel on
    [blockSize = 0] runs no pass of its loop and then divides by zero,
    which is undefined, in either build. *)
Theorem C6_no_argument_check :
  (forall kernel mem rt pSrc blockSize fracBits nPE m,
      rt_cluster_id rt <> ARCHI_FC_CID rt ->
      ~ rejected m
          (plp_rms_q8_parallel kernel mem rt pSrc blockSize fracBits nPE m)
      /\ (forall m',
            plp_rms_q8_parallel kernel mem rt pSrc blockSize fracBits nPE m
            = Some m' ->
            console m' = console m))
  /\ (forall unroll mem pSrc fracBits,
        loop unroll mem pSrc 0 fracBits = Some (pSrc, 0)
        /\ plp_rms_q8s_rv32im unroll mem pSrc 0 fracBits = None).
Proof.
  split.
  - intros kernel mem rt pSrc0 b f n m Hctx.
    assert (Hsilent : forall m',
               plp_rms_q8_parallel kernel mem rt pSrc0 b f n m = Some m' ->
               console m' = console m)
      by (intros m'; apply cluster_side_silent; assumption).
    split; [|exact Hsilent].
    intros (m' & Hrun & Hcon & _). apply Hcon, Hsilent, Hrun.
  - intros unroll mem pSrc0 f. split; destruct unroll; reflexivity.
Qed.

(** An empty block on no core, from the cluster side. *)
Lemma C6_witness :
  rt_cluster_id cluster_side <> ARCHI_FC_CID cluster_side
  /\ ~ rejected before
        (plp_rms_q8_parallel plp_rms_q8s_xpulpv2 ones cluster_side 0 0 0 0 before).
Proof.
  assert (Hctx : rt_cluster_id cluster_side <> ARCHI_FC_CID cluster_side)
    by (cbn; lia).
  split; [exact Hctx|].
  exact (proj1 (proj1 C6_no_argument_check plp_rms_q8s_xpulpv2 ones cluster_side
                  0 0 0 0 before Hctx)).
Defined.

(** C6, as stated, fails on the code: on the cluster side neither
    [nPE = 0] nor [blockSize = 0] is rejected, and the kernel on an empty
    block divides by zero. *)
Lemma C6_counterexample :
  ~ rejected before
      (plp_rms_q8_parallel plp_rms_q8s_xpulpv2 ones cluster_side 0 8 0 0 before)
  /\ ~ rejected before
        (plp_rms_q8_parallel plp_rms_q8s_xpulpv2 ones cluster_side 0 0 0 1 before)
  /\ plp_rms_q8_parallel plp_rms_q8s_xpulpv2 ones cluster_side 0 0 0 1 before = None
  /\ plp_rms_q8s_rv32im false ones 0 0 0 = None
  /\ plp_rms_q8s_rv32im true ones 0 0 0 = None.
Proof.
  assert (Hctx : rt_cluster_id cluster_side <> ARCHI_FC_CID cluster_side)
    by (cbn; lia).
  assert (Hsilent : forall blockSize nPE,
             ~ rejected before
                 (plp_rms_q8_parallel plp_rms_q8s_xpulpv2 ones cluster_side
                    0 blockSize 0 nPE before)).
  { intros b n (m' & Hrun & Hcon & _).
    apply Hcon. eapply cluster_side_silent; eassumption. }
  split; [apply Hsilent | split; [apply Hsilent | repeat split]].
Qed.

(** C7.  From the controller context, whatever the arguments, the
    parallel entry point prints its diagnostic and returns: the caller's
    cell, the scratch block and the global pointer are as before, nothing
    is allocated and no team is started; the call is rejected. *)
Theorem C7_controller_context_rejected :
  forall kernel mem rt pSrc blockSize fracBits nPE m,
    rt_cluster_id rt = ARCHI_FC_CID rt ->
    exists m',
      plp_rms_q8_parallel kernel mem rt pSrc blockSize fracBits nPE m = Some m'
      /\ console m'
         = console m ++ [wrong_context]
      /\ result m' = result m
      /\ allocs m' = allocs m
      /\ teams m' = teams m
      /\ cl_data m' = cl_data m
      /\ resultsBuffer m' = resultsBuffer m
      /\ rejected m
           (plp_rms_q8_parallel kernel mem rt pSrc blockSize fracBits nPE m).
Proof.
  intros kernel mem rt pSrc0 b f n m Hctx.
  unfold plp_rms_q8_parallel. apply Z.eqb_eq in Hctx. rewrite Hctx.
  eexists. split; [reflexivity|]. cbn [printf console result allocs teams
                                       cl_data resultsBuffer].
  repeat (split; [reflexivity|]).
  eexists. split; [reflexivity|]. cbn [printf console result allocs teams].
  repeat split.
  intros H. apply (f_equal (@length _)) in H. rewrite length_app in H.
  cbn [length] in H. lia.
Qed.

(** Scenario 5 of the specification: the caller's 42 is still there. *)
Lemma C7_scenario_5 :
  rt_cluster_id controller = ARCHI_FC_CID controller
  /\ exists m',
      plp_rms_q8_parallel plp_rms_q8s_xpulpv2 ones controller 0 8 0 2 before
      = Some m'
      /\ result m' = 42
      /\ allocs m' = []
      /\ teams m' = [].
Proof.
  split; [reflexivity|].
  destruct (C7_controller_context_rejected plp_rms_q8s_xpulpv2 ones controller
              0 8 0 2 before eq_refl)
    as (m' & Hrun & _ & Hres & Hall & Hteams & _).
  exists m'. split; [exact Hrun | split; [exact Hres | split; assumption]].
Defined.

(** C8.  For every vector, start offset, block size and shift count, the
    loops of the unrolled build (two samples a pass, and one more sample
    when [blockSize] is odd) leave the pointer and the accumulator of the
    one-sample-a-pass loop, undefined behaviour included, and the two
    builds of the kernel store the same value; on a valid block both
    loops are defined. *)
Theorem C8_unrolled_equals_simple :
  forall mem pSrc blockSize fracBits,
    0 <= blockSize ->
    loop_unrolled mem pSrc blockSize fracBits
    = loop_simple mem pSrc blockSize fracBits
    /\ plp_rms_q8s_rv32im true mem pSrc blockSize fracBits
       = plp_rms_q8s_rv32im false mem pSrc blockSize fracBits
    /\ (Forall int8 mem -> 0 <= fracBits < 32 -> 0 <= pSrc ->
        pSrc + blockSize <= Z.of_nat (length mem) ->
        exists st, loop_unrolled mem pSrc blockSize fracBits = Some st
                   /\ loop_simple mem pSrc blockSize fracBits = Some st
                   /\ snd st = Spec.accu fracBits (Spec.slice mem pSrc blockSize)).
Proof.
  intros mem pSrc blockSize fracBits Hb.
  pose proof (loop_unrolled_simple mem pSrc blockSize fracBits Hb) as E.
  split; [exact E | split].
  - unfold plp_rms_q8s_rv32im, loop. now rewrite E.
  - intros Hmem Hf Hp Hlen. rewrite E. unfold loop_simple.
    rewrite loop_simple_value by (try assumption; lia).
    eexists. split; [reflexivity | split; [reflexivity|]].
    reflexivity.
Qed.

(** Three samples with [fracBits = 1]: 4 + 8 + 12. *)
Lemma C8_witness :
  0 <= 3
  /\ loop_unrolled [3; -4; 5] 0 3 1 = Some (3, 24)
  /\ loop_simple [3; -4; 5] 0 3 1 = Some (3, 24).
Proof.
  split; [lia|].
  destruct (C8_unrolled_equals_simple [3; -4; 5] 0 3 1 ltac:(lia)) as (E & _ & _).
  split; [rewrite E|]; reflexivity.
Defined.

(** C9.  On a vector that holds [numSamples] interleaved complex samples
    of [int8_t], with room for them in the destination, the kernel is
    defined; it stores every real part (even index) unchanged and, for
    every imaginary part (odd index), its negation, except that
    [INT8_MIN] becomes [INT8_MAX]; the rest of the destination is as it
    was.  Applied to its own output, the kernel turns an imaginary part
    [INT8_MIN] into -127: conjugating twice is not the identity there. *)
Theorem C9_conjugate :
  (forall mem dst0 numSamples,
      Forall int8 mem ->
      0 <= numSamples ->
      2 * numSamples <= Z.of_nat (length mem) ->
      2 * numSamples <= Z.of_nat (length dst0) ->
      2 * numSamples < 2 ^ 32 ->
      exists out,
        Conj.plp_cmplx_conj_i8_rv32im mem dst0 numSamples = Some out
        /\ length out = length dst0
        /\ (forall k, Z.of_nat k < numSamples ->
              nth (2 * k) out 0 = nth (2 * k) mem 0
              /\ nth (2 * k + 1) out 0
                 = if nth (2 * k + 1) mem 0 =? INT8_MIN
                   then INT8_MAX
                   else - nth (2 * k + 1) mem 0)
        /\ (forall j, 2 * numSamples <= Z.of_nat j -> nth j out 0 = nth j dst0 0)
        /\ (forall dst1,
              2 * numSamples <= Z.of_nat (length dst1) ->
              exists out2,
                Conj.plp_cmplx_conj_i8_rv32im out dst1 numSamples = Some out2
                /\ forall k, Z.of_nat k < numSamples ->
                     nth (2 * k + 1) mem 0 = INT8_MIN ->
                     nth (2 * k + 1) out2 0 = -127
                     /\ nth (2 * k + 1) out2 0 <> nth (2 * k + 1) mem 0))
  /\ (Conj.plp_cmplx_conj_i8_rv32im [1; 2; 3; -128] [0; 0; 0; 0] 2
      = Some [1; -2; 3; 127]
      /\ Conj.plp_cmplx_conj_i8_rv32im [1; -2; 3; 127] [0; 0; 0; 0] 2
         = Some [1; 2; 3; -127]).
Proof.
  split; [|split; reflexivity].
  intros mem dst0 numSamples Hmem Hn Hlm Hld Hfit.
  assert (Hpre : Forall int8 (firstn (Z.to_nat (2 * numSamples)) mem))
    by (now apply Forall_firstn).
  pose proof (ConjFacts.conj_kernel_value mem dst0 numSamples Hpre Hn Hlm Hld Hfit)
    as Hrun.
  destruct (ConjFacts.conj_kernel_nth mem dst0 numSamples _ Hpre Hn Hlm Hld Hfit Hrun)
    as (Hlen & Hout8 & Hidx & Hrest).
  eexists. split; [exact Hrun|].
  split; [exact Hlen | split; [exact Hidx | split; [exact Hrest|]]].
  intros dst1 Hld1.
  assert (Hlo : 2 * numSamples
                <= Z.of_nat (length (Spec.conj_from true
                                       (firstn (Z.to_nat (2 * numSamples)) mem)
                                     ++ skipn (Z.to_nat (2 * numSamples)) dst0)))
    by (rewrite Hlen; exact Hld).
  pose proof (ConjFacts.conj_kernel_value _ dst1 numSamples Hout8 Hn Hlo Hld1 Hfit)
    as Hrun2.
  destruct (ConjFacts.conj_kernel_nth _ dst1 numSamples _ Hout8 Hn Hlo Hld1 Hfit Hrun2)
    as (_ & _ & Hidx2 & _).
  eexists. split; [exact Hrun2|].
  intros k Hk Hmin.
  destruct (Hidx k Hk) as [_ H1]. destruct (Hidx2 k Hk) as [_ H2].
  rewrite H2, H1, Hmin. split; [reflexivity | discriminate].
Qed.

(** Two complex samples, the second with imaginary part [INT8_MIN]. *)
Lemma C9_witness :
  (Forall int8 [1; 2; 3; -128] /\ 0 <= 2 /\ 2 * 2 < 2 ^ 32)
  /\ exists out,
      Conj.plp_cmplx_conj_i8_rv32im [1; 2; 3; -128] [0; 0; 0; 0] 2 = Some out
      /\ nth 2 out 0 = 3
      /\ nth 3 out 0 = INT8_MAX.
Proof.
  assert (H4 : Forall int8 [1; 2; 3; -128])
    by (repeat constructor; unfold int8, INT8_MIN, INT8_MAX; lia).
  split; [split; [exact H4 | lia]|].
  destruct (proj1 C9_conjugate [1; 2; 3; -128] [0; 0; 0; 0] 2 H4
              ltac:(lia) ltac:(cbn; lia) ltac:(cbn; lia) ltac:(lia))
    as (out & Hrun & _ & Hidx & _).
  exists out. split; [exact Hrun|].
  destruct (Hidx 1%nat ltac:(lia)) as [Hre Him].
  split; [exact Hre | exact Him].
Defined.

(** C10.  Whenever the loop leaves an accumulator whose quotient by
    [blockSize >= 1], computed as the code computes it (the accumulator
    converted to [uint32_t] and divided unsigned), lies outside the signed
    8-bit range, the kernel stores that quotient wrapped modulo 2^8 into
    the signed 8-bit range, which is not the quotient.  Four samples of 127
    with [fracBits = 0] have quotient 16129 and store 1, neither the
    quotient nor the saturated [INT8_MAX].  A wrapped accumulator is
    covered as well: 131073 samples of -128 leave -2147467264, whose
    unsigned quotient 16384 is stored as 0 (the signed quotient -16383
    would be stored as 1). *)
Theorem C10_narrowing_wraps :
  (forall unroll mem pSrc blockSize fracBits st,
      1 <= blockSize ->
      loop unroll mem pSrc blockSize fracBits = Some st ->
      ~ int8 (u32 (snd st) / blockSize) ->
      plp_rms_q8s_rv32im unroll mem pSrc blockSize fracBits
      = Some (s8 (u32 (snd st) / blockSize))
      /\ (s8 (u32 (snd st) / blockSize) - u32 (snd st) / blockSize) mod 2 ^ 8 = 0
      /\ INT8_MIN <= s8 (u32 (snd st) / blockSize) <= INT8_MAX
      /\ s8 (u32 (snd st) / blockSize) <> u32 (snd st) / blockSize)
  /\ (loop false [127; 127; 127; 127] 0 4 0 = Some (4, 64516)
      /\ u32 64516 / 4 = 16129
      /\ plp_rms_q8s_rv32im false [127; 127; 127; 127] 0 4 0 = Some 1
      /\ 1 <> 16129 /\ 1 <> INT8_MAX)
  /\ (loop false (repeat (-128) (Z.to_nat 131073)) 0 131073 0
      = Some (131073, -2147467264)
      /\ u32 (-2147467264) / 131073 = 16384
      /\ plp_rms_q8s_rv32im false (repeat (-128) (Z.to_nat 131073)) 0 131073 0
         = Some 0
      /\ s8 16384 = 0
      /\ s8 (Z.quot (-2147467264) 131073) = 1).
Proof.
  split; [|split].
  - intros unroll mem pSrc blockSize fracBits st Hb Hloop Hq.
    pose proof (s8_range (u32 (snd st) / blockSize)) as H8.
    unfold INT8_MAX, INT8_MIN.
    split; [|split; [apply s8_congruent | split; [exact H8|]]].
    + unfold plp_rms_q8s_rv32im. rewrite Hloop. cbn [bind].
      unfold finish, divu32.
      destruct (blockSize =? 0) eqn:E; [apply Z.eqb_eq in E; lia|].
      reflexivity.
    + intros E. apply Hq. rewrite <- E.
      unfold int8, INT8_MIN, INT8_MAX. exact H8.
  - unfold INT8_MAX. repeat split; try reflexivity; lia.
  - assert (Hl : loop false (repeat (-128) (Z.to_nat 131073)) 0 131073 0
                 = Some (131073, -2147467264)).
    { unfold loop, loop_simple. rewrite loop_simple_value.
      - vm_compute. reflexivity.
      - apply Forall_forall. intros x Hx. apply repeat_spec in Hx. subst x.
        unfold int8, INT8_MIN, INT8_MAX. lia.
      - lia.
      - lia.
      - rewrite repeat_length. lia.
      - lia. }
    split; [exact Hl|].
    split; [vm_compute; reflexivity|].
    split; [|split; vm_compute; reflexivity].
    unfold plp_rms_q8s_rv32im. rewrite Hl. vm_compute. reflexivity.
Qed.

(** Four samples of 127. *)
Lemma C10_witness :
  1 <= 4
  /\ ~ int8 (u32 64516 / 4)
  /\ plp_rms_q8s_rv32im false [127; 127; 127; 127] 0 4 0
     = Some (s8 (u32 64516 / 4)).
Proof.
  assert (Hq : ~ int8 (u32 64516 / 4))
    by (change (u32 64516 / 4) with 16129;
        unfold int8, INT8_MIN, INT8_MAX; lia).
  split; [lia | split; [exact Hq|]].
  apply (proj1 C10_narrowing_wraps false [127; 127; 127; 127] 0 4 0 (4, 64516));
    [lia | reflexivity | exact Hq].
Defined.

(** * Further properties of the code *)

(** ** The single-core kernel *)

Module RmsMore.

(** A loop that has to read past the end of the vector is undefined. *)
Lemma loop_simple_overrun mem fracBits n : forall p a,
  (1 <= n)%nat ->
  0 <= p ->
  Z.of_nat (length mem) < p + Z.of_nat n ->
  iter n (body1 mem fracBits) (p, a) = None.
Proof.
  induction n as [|n IH]; intros p a Hn Hp Hlen; [lia|].
  cbn [iter]. unfold body1 at 1.
  destruct (load mem p) as [x|] eqn:Hx; cbn [bind]; [|reflexivity].
  destruct (asr32 (s32 (x * x)) fracBits) as [t|]; cbn [bind]; [|reflexivity].
  assert (Hin : p < Z.of_nat (length mem)).
  { unfold load in Hx. destruct (p <? 0); [discriminate|].
    assert (Z.to_nat p < length mem)%nat
      by (apply nth_error_Some; congruence).
    lia. }
  apply IH; lia.
Qed.

(** A loop of at least one pass with a shift count outside [0, 32) is
    undefined. *)
Lemma loop_simple_bad_shift mem fracBits n p a :
  (1 <= n)%nat ->
  32 <= fracBits ->
  iter n (body1 mem fracBits) (p, a) = None.
Proof.
  intros Hn Hf. destruct n as [|n]; [lia|].
  cbn [iter]. unfold body1, asr32.
  destruct (load mem p) as [x|]; cbn [bind]; [|reflexivity].
  replace ((0 <=? fracBits) && (fracBits <? 32)) with false; [reflexivity|].
  symmetry. apply andb_false_iff. right. apply Z.ltb_ge. lia.
Qed.

(** The kernel on a valid block whose exact sum fits the accumulator. *)
Lemma kernel_exact unroll mem pSrc blockSize fracBits :
  Forall int8 mem ->
  0 <= fracBits < 32 ->
  0 <= pSrc ->
  1 <= blockSize ->
  pSrc + blockSize <= Z.of_nat (length mem) ->
  Spec.sum (map (Spec.term fracBits) (Spec.slice mem pSrc blockSize)) < 2 ^ 31 ->
  plp_rms_q8s_rv32im unroll mem pSrc blockSize fracBits
  = Some (s8 (Spec.sum (map (Spec.term fracBits) (Spec.slice mem pSrc blockSize))
              / blockSize)).
Proof.
  intros Hmem Hf Hp Hb Hlen Hsum.
  rewrite rms_kernel_value by assumption.
  pose proof (sum_bounds fracBits _ (proj1 Hf) (slice_int8 mem pSrc blockSize Hmem))
    as Hs.
  unfold Spec.accu. rewrite s32_small, u32_small by lia. reflexivity.
Qed.

Lemma kernel_bad_shift unroll mem pSrc blockSize fracBits :
  1 <= blockSize ->
  32 <= fracBits ->
  plp_rms_q8s_rv32im unroll mem pSrc blockSize fracBits = None.
Proof.
  intros Hb Hf. unfold plp_rms_q8s_rv32im.
  rewrite loop_any_simple by lia. unfold loop_simple.
  rewrite loop_simple_bad_shift by lia. reflexivity.
Qed.

Lemma kernel_overrun unroll mem pSrc blockSize fracBits :
  1 <= blockSize ->
  0 <= pSrc ->
  Z.of_nat (length mem) < pSrc + blockSize ->
  plp_rms_q8s_rv32im unroll mem pSrc blockSize fracBits = None.
Proof.
  intros Hb Hp Hout. unfold plp_rms_q8s_rv32im.
  rewrite loop_any_simple by lia. unfold loop_simple.
  rewrite loop_simple_overrun by lia. reflexivity.
Qed.

(** The whole vector as a block. *)
Lemma slice_whole (mem : list Z) :
  Spec.slice mem 0 (Z.of_nat (length mem)) = mem.
Proof.
  unfold Spec.slice. rewrite Nat2Z.id. cbn [Z.to_nat skipn].
  apply firstn_all.
Qed.

Lemma sum_permutation xs ys : Permutation xs ys -> Spec.sum xs = Spec.sum ys.
Proof.
  unfold Spec.sum. induction 1; cbn [fold_right]; lia.
Qed.

Lemma sum_repeat c n : Spec.sum (repeat c n) = Z.of_nat n * c.
Proof.
  induction n as [|n IH]; [reflexivity|].
  cbn [repeat Spec.sum fold_right]. fold (Spec.sum (repeat c n)). lia.
Qed.

(** A shifted square is at most [2^14 >> fracBits]. *)
Lemma term_le fracBits x :
  0 <= fracBits -> int8 x ->
  0 <= Spec.term fracBits x <= 2 ^ 14 / 2 ^ fracBits.
Proof.
  intros Hf Hx. destruct (square_int8 x Hx) as [_ Hsq].
  unfold Spec.term. rewrite Z.shiftr_div_pow2 by assumption.
  assert (0 < 2 ^ fracBits) by (apply Z.pow_pos_nonneg; lia).
  split; [apply Z.div_pos; lia | apply Z.div_le_mono; lia].
Qed.

Lemma sum_le fracBits xs :
  0 <= fracBits -> Forall int8 xs ->
  0 <= Spec.sum (map (Spec.term fracBits) xs)
  <= 2 ^ 14 / 2 ^ fracBits * Z.of_nat (length xs).
Proof.
  intros Hf. induction 1 as [|x xs Hx _ IH].
  - cbn. lia.
  - cbn [map Spec.sum fold_right length].
    fold (Spec.sum (map (Spec.term fracBits) xs)).
    pose proof (term_le fracBits x Hf Hx). lia.
Qed.

(** What shifting every square loses against the unshifted sum: less than
    one unit of [2^fracBits] a sample. *)
Lemma sum_truncation fracBits xs :
  0 <= fracBits ->
  Forall int8 xs ->
  Spec.sum (map (Spec.term fracBits) xs) * 2 ^ fracBits
  <= Spec.sum (map (Spec.term 0) xs)
  <= (Spec.sum (map (Spec.term fracBits) xs) + Z.of_nat (length xs))
     * 2 ^ fracBits - Z.of_nat (length xs).
Proof.
  intros Hf. induction 1 as [|x xs Hx _ IH].
  - cbn. lia.
  - cbn [map Spec.sum fold_right length].
    fold (Spec.sum (map (Spec.term fracBits) xs)).
    fold (Spec.sum (map (Spec.term 0) xs)).
    assert (H2 : 0 < 2 ^ fracBits) by (apply Z.pow_pos_nonneg; lia).
    assert (E0 : Spec.term 0 x = x * x) by reflexivity.
    assert (Ef : Spec.term fracBits x = x * x / 2 ^ fracBits)
      by (unfold Spec.term; now rewrite Z.shiftr_div_pow2).
    pose proof (Z.div_mod (x * x) (2 ^ fracBits) ltac:(lia)) as Ed.
    pose proof (Z.mod_pos_bound (x * x) (2 ^ fracBits) H2) as Er.
    rewrite E0, Ef. nia.
Qed.

(** With a shift count of at least 8 nothing wraps on a block of fewer
    than [2^25] samples. *)
Lemma kernel_shift8 unroll mem pSrc blockSize fracBits :
  Forall int8 mem ->
  8 <= fracBits < 32 ->
  0 <= pSrc ->
  1 <= blockSize < 2 ^ 25 ->
  pSrc + blockSize <= Z.of_nat (length mem) ->
  plp_rms_q8s_rv32im unroll mem pSrc blockSize fracBits
  = Some (Spec.sum (map (Spec.term fracBits) (Spec.slice mem pSrc blockSize))
          / blockSize)
  /\ 0 <= Spec.sum (map (Spec.term fracBits) (Spec.slice mem pSrc blockSize))
  /\ 0 <= Spec.sum (map (Spec.term fracBits) (Spec.slice mem pSrc blockSize))
          / blockSize <= 64.
Proof.
  intros Hmem Hf Hp Hb Hlen.
  pose proof (sum_le fracBits _ ltac:(lia) (slice_int8 mem pSrc blockSize Hmem))
    as Hs.
  rewrite slice_length in Hs by lia.
  assert (H8 : 2 ^ 14 / 2 ^ fracBits <= 64).
  { assert (2 ^ 8 <= 2 ^ fracBits) by (apply Z.pow_le_mono_r; lia).
    apply Z.div_le_upper_bound; lia. }
  assert (H0 : 0 <= 2 ^ 14 / 2 ^ fracBits)
    by (apply Z.div_pos; [lia | apply Z.pow_pos_nonneg; lia]).
  set (sum := Spec.sum (map (Spec.term fracBits) (Spec.slice mem pSrc blockSize)))
    in *.
  assert (Hsum : 0 <= sum <= 64 * blockSize) by nia.
  assert (Hq : 0 <= sum / blockSize <= 64).
  { split; [apply Z.div_pos; lia | apply Z.div_le_upper_bound; lia]. }
  split; [|split; [lia | exact Hq]].
  rewrite kernel_exact by (try assumption; fold sum; lia).
  fold sum. rewrite s8_small by lia. reflexivity.
Qed.

End RmsMore.

Import RmsMore.

(** X1.  On a vector of [int8_t] cells and a block of 1 to 131071 samples,
    the kernel is undefined exactly when the shift count is 32 or more or
    the block [pSrc, pSrc + blockSize) does not lie within the vector.
    In every other case the exact sum of the shifted squares, whose terms
    are non-negative, is below 2^31, so that no addition to the signed
    accumulator overflows, and the kernel stores the quotient of that sum
    by [blockSize], narrowed to 8 bits. *)
Theorem X1_rms_defined_iff :
  forall unroll mem pSrc blockSize fracBits,
    Forall int8 mem ->
    0 <= fracBits ->
    0 <= pSrc ->
    1 <= blockSize <= 131071 ->
    (plp_rms_q8s_rv32im unroll mem pSrc blockSize fracBits = None
     <-> 32 <= fracBits \/ Z.of_nat (length mem) < pSrc + blockSize)
    /\ (fracBits < 32 ->
        pSrc + blockSize <= Z.of_nat (length mem) ->
        Forall (fun t => 0 <= t)
               (map (Spec.term fracBits) (Spec.slice mem pSrc blockSize))
        /\ Spec.sum (map (Spec.term fracBits) (Spec.slice mem pSrc blockSize))
           < 2 ^ 31
        /\ plp_rms_q8s_rv32im unroll mem pSrc blockSize fracBits
           = Some (s8 (Spec.sum (map (Spec.term fracBits)
                                     (Spec.slice mem pSrc blockSize))
                       / blockSize))).
Proof.
  intros unroll mem p b f Hmem Hf Hp Hb.
  assert (Hfit : f < 32 -> p + b <= Z.of_nat (length mem) ->
                 Spec.sum (map (Spec.term f) (Spec.slice mem p b)) < 2 ^ 31).
  { intros Hlt Hin.
    pose proof (sum_le f _ Hf (slice_int8 mem p b Hmem)) as Hs.
    rewrite slice_length in Hs by lia.
    assert (H2 : 0 < 2 ^ f) by (apply Z.pow_pos_nonneg; lia).
    assert (Ht : 0 <= 2 ^ 14 / 2 ^ f <= 2 ^ 14).
    { split; [apply Z.div_pos; lia|].
      apply Z.div_le_upper_bound; [lia|nia]. }
    nia. }
  split; [split|].
  - intros Hnone.
    destruct (Z_lt_le_dec f 32) as [Hlt|Hge]; [|now left].
    destruct (Z_lt_le_dec (Z.of_nat (length mem)) (p + b)) as [Hout|Hin];
      [now right|].
    rewrite rms_kernel_value in Hnone by (try assumption; lia).
    discriminate.
  - intros [Hge|Hout].
    + apply kernel_bad_shift; lia.
    + apply kernel_overrun; lia.
  - intros Hlt Hin. split; [|split].
    + apply Forall_forall. intros t Ht. apply in_map_iff in Ht.
      destruct Ht as (x & <- & Hx).
      apply (term_le f x Hf).
      pose proof (slice_int8 mem p b Hmem) as Hall.
      rewrite Forall_forall in Hall. now apply Hall.
    + now apply Hfit.
    + apply kernel_exact; try assumption; try lia; now apply Hfit.
Qed.

(** Two samples asked of a one-element vector. *)
Lemma X1_witness :
  (Forall int8 [5] /\ 0 <= 0 /\ 1 <= 2 <= 131071)
  /\ plp_rms_q8s_rv32im false [5] 0 2 0 = None.
Proof.
  assert (H1 : Forall int8 [5])
    by (repeat constructor; unfold int8, INT8_MIN, INT8_MAX; lia).
  split; [split; [exact H1 | lia]|].
  apply (proj2 (proj1 (X1_rms_defined_iff false [5] 0 2 0 H1 ltac:(lia)
                         ltac:(lia) ltac:(lia)))).
  right. cbn. lia.
Defined.

(** X2.  The kernel on a whole vector does not depend on the order of the
    samples: two non-empty vectors of [int8_t] cells that are permutations
    of each other give the same stored value (or are both undefined), for
    every length, wrap-around of the accumulator included. *)
Theorem X2_rms_permutation :
  forall unroll mem mem' fracBits,
    Permutation mem mem' ->
    Forall int8 mem ->
    0 <= fracBits ->
    mem <> [] ->
    plp_rms_q8s_rv32im unroll mem 0 (Z.of_nat (length mem)) fracBits
    = plp_rms_q8s_rv32im unroll mem' 0 (Z.of_nat (length mem')) fracBits.
Proof.
  intros unroll mem mem' f Hperm Hmem Hf Hne.
  assert (Hmem' : Forall int8 mem') by (eapply Permutation_Forall; eassumption).
  assert (Hlen : length mem' = length mem)
    by (symmetry; now apply Permutation_length).
  assert (Hpos : 1 <= Z.of_nat (length mem))
    by (destruct mem; [contradiction | cbn [length]; lia]).
  destruct (Z_lt_le_dec f 32) as [Hlt|Hge].
  - rewrite !rms_kernel_value by (try assumption; lia).
    rewrite !slice_whole, Hlen.
    unfold Spec.accu.
    rewrite (sum_permutation _ _ (Permutation_map (Spec.term f) Hperm)).
    reflexivity.
  - rewrite !kernel_bad_shift by lia. reflexivity.
Qed.

(** Three samples and their reversal. *)
Lemma X2_witness :
  (Permutation [3; -4; 5] [5; -4; 3] /\ Forall int8 [3; -4; 5] /\ 0 <= 1)
  /\ plp_rms_q8s_rv32im true [3; -4; 5] 0 3 1
     = plp_rms_q8s_rv32im true [5; -4; 3] 0 3 1.
Proof.
  assert (H3 : Forall int8 [3; -4; 5])
    by (repeat constructor; unfold int8, INT8_MIN, INT8_MAX; lia).
  assert (Hp : Permutation [3; -4; 5] [5; -4; 3])
    by (change [5; -4; 3] with (rev [3; -4; 5]); apply Permutation_rev).
  split; [split; [exact Hp | split; [exact H3 | lia]]|].
  exact (X2_rms_permutation true [3; -4; 5] [5; -4; 3] 1 Hp H3 ltac:(lia)
           ltac:(discriminate)).
Defined.

(** X3.  On a block of at most 131071 copies of one sample [c] the kernel
    stores the shifted square of [c], narrowed to 8 bits: the mean of
    equal terms is the term. *)
Theorem X3_rms_constant_block :
  forall unroll c n fracBits,
    int8 c ->
    0 <= fracBits < 32 ->
    1 <= n <= 131071 ->
    plp_rms_q8s_rv32im unroll (repeat c (Z.to_nat n)) 0 n fracBits
    = Some (s8 (Z.shiftr (c * c) fracBits)).
Proof.
  intros unroll c n f Hc Hf Hn.
  assert (Hmem : Forall int8 (repeat c (Z.to_nat n))).
  { apply Forall_forall. intros x Hx. apply repeat_spec in Hx. now subst x. }
  assert (Hlen : Z.of_nat (length (repeat c (Z.to_nat n))) = n)
    by (rewrite repeat_length; lia).
  assert (Hslice : Spec.slice (repeat c (Z.to_nat n)) 0 n = repeat c (Z.to_nat n)).
  { rewrite <- Hlen at 2. apply slice_whole. }
  pose proof (term_bounds f c (proj1 Hf) Hc) as Ht.
  assert (Hsum : Spec.sum (map (Spec.term f) (repeat c (Z.to_nat n)))
                 = n * Spec.term f c).
  { rewrite map_repeat, sum_repeat. lia. }
  rewrite kernel_exact; try assumption; try lia.
  - rewrite Hslice, Hsum, Z.mul_comm, Z.div_mul by lia. reflexivity.
  - rewrite Hslice, Hsum. nia.
Qed.

(** Five samples of -7 with [fracBits = 2]: 49 >> 2 = 12. *)
Lemma X3_witness :
  (int8 (-7) /\ 0 <= 2 < 32 /\ 1 <= 5 <= 131071)
  /\ plp_rms_q8s_rv32im false [-7; -7; -7; -7; -7] 0 5 2 = Some 12.
Proof.
  assert (H7 : int8 (-7)) by (unfold int8, INT8_MIN, INT8_MAX; lia).
  split; [split; [exact H7 | lia]|].
  exact (X3_rms_constant_block false (-7) 5 2 H7 ltac:(lia) ltac:(lia)).
Defined.

(** X4.  With a shift count from 15 to 31 every shifted square is 0 and
    the kernel stores 0 on every valid block, whatever the samples and
    however long the block. *)
Theorem X4_rms_large_shift_is_zero :
  forall unroll mem pSrc blockSize fracBits,
    Forall int8 mem ->
    15 <= fracBits < 32 ->
    0 <= pSrc ->
    1 <= blockSize ->
    pSrc + blockSize <= Z.of_nat (length mem) ->
    plp_rms_q8s_rv32im unroll mem pSrc blockSize fracBits = Some 0.
Proof.
  intros unroll mem p b f Hmem Hf Hp Hb Hlen.
  pose proof (sum_le f _ ltac:(lia) (slice_int8 mem p b Hmem)) as Hs.
  assert (H15 : 2 ^ 14 / 2 ^ f = 0).
  { apply Z.div_small. split; [lia|].
    apply Z.lt_le_trans with (2 ^ 15); [lia|].
    apply Z.pow_le_mono_r; lia. }
  rewrite H15 in Hs.
  assert (E : Spec.sum (map (Spec.term f) (Spec.slice mem p b)) = 0) by lia.
  rewrite kernel_exact by (try assumption; lia).
  rewrite E, Z.div_0_l by lia. reflexivity.
Qed.

(** The loudest samples, shifted by 15. *)
Lemma X4_witness :
  (Forall int8 [-128; 127; -128] /\ 15 <= 15 < 32 /\ 1 <= 3)
  /\ plp_rms_q8s_rv32im false [-128; 127; -128] 0 3 15 = Some 0.
Proof.
  assert (H3 : Forall int8 [-128; 127; -128])
    by (repeat constructor; unfold int8, INT8_MIN, INT8_MAX; lia).
  split; [split; [exact H3 | lia]|].
  apply (X4_rms_large_shift_is_zero false [-128; 127; -128] 0 3 15 H3);
    cbn; lia.
Defined.

(** X5.  With a shift count from 8 to 31, on a valid block of fewer than
    2^25 samples, nothing wraps: the kernel stores the exact quotient of
    the sum of the shifted squares by [blockSize], a value from 0 to 64.
    The bound 8 is sharp: one sample of -128 with [fracBits = 7] has
    quotient 128 and stores -128. *)
Theorem X5_rms_no_wrap_from_shift_8 :
  (forall unroll mem pSrc blockSize fracBits,
      Forall int8 mem ->
      8 <= fracBits < 32 ->
      0 <= pSrc ->
      1 <= blockSize < 2 ^ 25 ->
      pSrc + blockSize <= Z.of_nat (length mem) ->
      plp_rms_q8s_rv32im unroll mem pSrc blockSize fracBits
      = Some (Spec.sum (map (Spec.term fracBits) (Spec.slice mem pSrc blockSize))
              / blockSize)
      /\ 0 <= Spec.sum (map (Spec.term fracBits) (Spec.slice mem pSrc blockSize))
              / blockSize <= 64)
  /\ plp_rms_q8s_rv32im false [-128] 0 1 7 = Some (-128).
Proof.
  split; [|reflexivity].
  intros unroll mem p b f Hmem Hf Hp Hb Hlen.
  destruct (kernel_shift8 unroll mem p b f Hmem Hf Hp Hb Hlen) as (Hk & _ & Hq).
  split; assumption.
Qed.

(** Two samples shifted by 8: (64 + 62) / 2. *)
Lemma X5_witness :
  (Forall int8 [-128; 127] /\ 8 <= 8 < 32 /\ 1 <= 2 < 2 ^ 25)
  /\ plp_rms_q8s_rv32im false [-128; 127] 0 2 8
     = Some (Spec.sum (map (Spec.term 8) [-128; 127]) / 2).
Proof.
  assert (H2 : Forall int8 [-128; 127])
    by (repeat constructor; unfold int8, INT8_MIN, INT8_MAX; lia).
  split; [split; [exact H2 | lia]|].
  apply (proj1 X5_rms_no_wrap_from_shift_8 false [-128; 127] 0 2 8 H2);
    cbn; lia.
Defined.

(** X6.  On a valid block of at most 131071 samples the loop is defined
    for the shift count [fracBits] and for the shift count 0, and its
    accumulator [accu] for [fracBits] relates to the accumulator [accu0]
    of the unshifted squares by
    [accu * 2^fracBits <= accu0 < (accu + blockSize) * 2^fracBits]:
    shifting each square before adding loses less than one unit a
    sample. *)
Theorem X6_rms_shift_precision :
  forall unroll mem pSrc blockSize fracBits,
    Forall int8 mem ->
    0 <= fracBits < 32 ->
    0 <= pSrc ->
    1 <= blockSize <= 131071 ->
    pSrc + blockSize <= Z.of_nat (length mem) ->
    exists st st0,
      loop unroll mem pSrc blockSize fracBits = Some st
      /\ loop unroll mem pSrc blockSize 0 = Some st0
      /\ snd st * 2 ^ fracBits <= snd st0 < (snd st + blockSize) * 2 ^ fracBits.
Proof.
  intros unroll mem p b f Hmem Hf Hp Hb Hlen.
  rewrite !loop_any_simple by lia. unfold loop_simple.
  rewrite !loop_simple_value by (try assumption; lia).
  eexists. eexists. split; [reflexivity | split; [reflexivity|]].
  cbn [snd]. rewrite !Z.add_0_l.
  replace (firstn (Z.to_nat b) (skipn (Z.to_nat p) mem))
    with (Spec.slice mem p b) by reflexivity.
  pose proof (slice_int8 mem p b Hmem) as H8.
  pose proof (sum_bounds f _ (proj1 Hf) H8) as Hsf.
  pose proof (sum_bounds 0 _ ltac:(lia) H8) as Hs0.
  pose proof (sum_truncation f _ (proj1 Hf) H8) as Ht.
  rewrite slice_length in Hsf, Hs0, Ht by lia.
  rewrite !s32_small by lia.
  assert (0 < 2 ^ f) by (apply Z.pow_pos_nonneg; lia).
  nia.
Qed.

(** Squares 9, 16, 25 shifted by 1: 4 + 8 + 12 against 50. *)
Lemma X6_witness :
  (Forall int8 [3; -4; 5] /\ 0 <= 1 < 32 /\ 1 <= 3 <= 131071)
  /\ exists st st0,
      loop false [3; -4; 5] 0 3 1 = Some st
      /\ loop false [3; -4; 5] 0 3 0 = Some st0
      /\ snd st * 2 ^ 1 <= snd st0 < (snd st + 3) * 2 ^ 1.
Proof.
  assert (H3 : Forall int8 [3; -4; 5])
    by (repeat constructor; unfold int8, INT8_MIN, INT8_MAX; lia).
  split; [split; [exact H3 | lia]|].
  apply (X6_rms_shift_precision false [3; -4; 5] 0 3 1 H3); cbn; lia.
Defined.

(** ** The complex conjugate *)

Module ConjMore.
Import Conj ConjFacts.

Lemma conj_imag_min : Spec.conj_imag INT8_MIN = INT8_MAX.
Proof. reflexivity. Qed.

Lemma conj_imag_opp x : x <> INT8_MIN -> Spec.conj_imag x = - x.
Proof.
  intros H. unfold Spec.conj_imag.
  destruct (x =? INT8_MIN) eqn:E; [apply Z.eqb_eq in E; contradiction|].
  reflexivity.
Qed.

(** Conjugating an imaginary part three times is conjugating it once. *)
Lemma conj_imag_thrice x :
  int8 x ->
  Spec.conj_imag (Spec.conj_imag (Spec.conj_imag x)) = Spec.conj_imag x.
Proof.
  unfold int8, INT8_MIN, INT8_MAX. intros Hx.
  destruct (Z.eq_dec x (-128)) as [->|Hne]; [reflexivity|].
  rewrite (conj_imag_opp x) by (unfold INT8_MIN; lia).
  rewrite (conj_imag_opp (- x)) by (unfold INT8_MIN; lia).
  rewrite Z.opp_involutive. apply conj_imag_opp. unfold INT8_MIN. lia.
Qed.

Lemma conj_from_thrice xs : forall real,
  Forall int8 xs ->
  Spec.conj_from real (Spec.conj_from real (Spec.conj_from real xs))
  = Spec.conj_from real xs.
Proof.
  induction xs as [|x xs IH]; intros real H; [reflexivity|].
  inversion H as [|? ? Hx Hxs]; subst.
  cbn [Spec.conj_from]. rewrite IH by assumption.
  destruct real; [reflexivity | now rewrite conj_imag_thrice by assumption].
Qed.

(** Where no imaginary part is [INT8_MIN], conjugating twice gives the
    samples back; [real] tells whether the head is a real part. *)
Lemma conj_from_twice xs : forall (real : bool),
  Forall int8 xs ->
  (forall i, (i < length xs)%nat -> Nat.even i = negb real ->
             nth i xs 0 <> INT8_MIN) ->
  Spec.conj_from real (Spec.conj_from real xs) = xs.
Proof.
  induction xs as [|x xs IH]; intros real H8 H; [reflexivity|].
  inversion H8 as [|? ? Hx Hxs]; subst.
  cbn [Spec.conj_from]. rewrite IH; [|assumption|].
  - destruct real; [reflexivity|].
    assert (Hne : x <> INT8_MIN)
      by (apply (H 0%nat); cbn; [lia | reflexivity]).
    rewrite (conj_imag_opp x Hne).
    unfold int8, INT8_MIN, INT8_MAX in *.
    rewrite conj_imag_opp by (unfold INT8_MIN; lia).
    now rewrite Z.opp_involutive.
  - intros i Hi Hev. apply (H (S i)); [cbn [length]; lia|].
    rewrite Nat.even_succ, <- Nat.negb_even, Hev. now destruct real.
Qed.

(** Where no imaginary part is [INT8_MIN], the conjugate has the squares
    of the samples. *)
Lemma conj_from_squares fracBits xs : forall (real : bool),
  (forall i, (i < length xs)%nat -> Nat.even i = negb real ->
             nth i xs 0 <> INT8_MIN) ->
  map (Spec.term fracBits) (Spec.conj_from real xs) = map (Spec.term fracBits) xs.
Proof.
  induction xs as [|x xs IH]; intros real H; [reflexivity|].
  cbn [Spec.conj_from map]. rewrite IH.
  - destruct real; [reflexivity|].
    assert (Hne : x <> INT8_MIN)
      by (apply (H 0%nat); cbn; [lia | reflexivity]).
    rewrite (conj_imag_opp x Hne). unfold Spec.term.
    now rewrite Z.mul_opp_opp.
  - intros i Hi Hev. apply (H (S i)); [cbn [length]; lia|].
    rewrite Nat.even_succ, <- Nat.negb_even, Hev. now destruct real.
Qed.

(** The imaginary parts of the first [numSamples] complex samples, as
    positions of the processed prefix. *)
Lemma imag_positions mem numSamples :
  0 <= numSamples ->
  (forall k, Z.of_nat k < numSamples -> nth (2 * k + 1) mem 0 <> INT8_MIN) ->
  forall i,
    (i < length (firstn (Z.to_nat (2 * numSamples)) mem))%nat ->
    Nat.even i = negb true ->
    nth i (firstn (Z.to_nat (2 * numSamples)) mem) 0 <> INT8_MIN.
Proof.
  intros Hn H i Hi Hev. rewrite length_firstn in Hi.
  rewrite nth_firstn.
  replace (i <? Z.to_nat (2 * numSamples))%nat with true
    by (symmetry; apply Nat.ltb_lt; lia).
  destruct (Nat.Even_or_Odd i) as [[k ->]|[k ->]].
  - rewrite Nat.even_mul in Hev. discriminate.
  - apply H. lia.
Qed.

(** A call on vectors that hold the samples: the destination vector, its
    processed prefix and what it keeps. *)
Lemma conj_run mem dst0 numSamples :
  Forall int8 (firstn (Z.to_nat (2 * numSamples)) mem) ->
  0 <= numSamples ->
  2 * numSamples <= Z.of_nat (length mem) ->
  2 * numSamples <= Z.of_nat (length dst0) ->
  2 * numSamples < 2 ^ 32 ->
  exists out,
    plp_cmplx_conj_i8_rv32im mem dst0 numSamples = Some out
    /\ firstn (Z.to_nat (2 * numSamples)) out
       = Spec.conj_from true (firstn (Z.to_nat (2 * numSamples)) mem)
    /\ length out = length dst0
    /\ Forall int8 (firstn (Z.to_nat (2 * numSamples)) out).
Proof.
  intros Hmem Hn Hlm Hld Hfit.
  pose proof (conj_kernel_value mem dst0 numSamples Hmem Hn Hlm Hld Hfit) as Hrun.
  destruct (conj_kernel_nth mem dst0 numSamples _ Hmem Hn Hlm Hld Hfit Hrun)
    as (Hlen & Hout8 & _ & _).
  eexists. split; [exact Hrun|]. split; [|split; assumption].
  set (n := Z.to_nat (2 * numSamples)) in *.
  assert (Hcs : length (Spec.conj_from true (firstn n mem)) = n)
    by (rewrite conj_from_length, length_firstn; lia).
  rewrite firstn_app, Hcs, Nat.sub_diag, firstn_O, app_nil_r.
  rewrite <- Hcs at 1. apply firstn_all.
Qed.

Lemma store_length d p v d' : store d p v = Some d' ->
  0 <= p < Z.of_nat (length d) /\ length d' = length d.
Proof.
  unfold store.
  destruct ((0 <=? p) && (p <? Z.of_nat (length d))) eqn:E; [|discriminate].
  apply andb_true_iff in E. destruct E as [E1 E2].
  apply Z.leb_le in E1. apply Z.ltb_lt in E2.
  intros [= <-]. split; [lia|].
  clear E1 E2. generalize (Z.to_nat p). induction d as [|x d IH]; intros [|n];
    cbn [update length]; try reflexivity.
  now rewrite IH.
Qed.

Lemma load_in_range mem p x : load mem p = Some x -> 0 <= p < Z.of_nat (length mem).
Proof.
  unfold load. destruct (p <? 0) eqn:E; [discriminate|].
  apply Z.ltb_ge in E. intros H.
  assert (Z.to_nat p < length mem)%nat by (apply nth_error_Some; congruence).
  lia.
Qed.

(** A loop that has to read or to write past the end of a vector is
    undefined. *)
Lemma loop_overrun mem n : forall st,
  (1 <= n)%nat ->
  Z.of_nat (length mem) < pSrc st + Z.of_nat n
  \/ Z.of_nat (length (dst st)) < pDst st + Z.of_nat n ->
  iter n (body mem) st = None.
Proof.
  induction n as [|n IH]; intros st Hn Hout; [lia|].
  cbn [iter]. unfold body at 1.
  destruct (load mem (pSrc st)) as [x|] eqn:Hx;
    [|destruct (sign st =? 1); reflexivity].
  apply load_in_range in Hx.
  replace (if sign st =? 1
           then Some x
           else in_ <- Some x ;;
                Some (if in_ =? INT8_MIN then INT8_MAX else s8 (- in_)))
    with (Some (if sign st =? 1
                then x
                else if x =? INT8_MIN then INT8_MAX else s8 (- x)))
    by (destruct (sign st =? 1); reflexivity).
  cbn [bind].
  destruct (store (dst st) (pDst st) _) as [d|] eqn:Hd; cbn [bind];
    [|reflexivity].
  apply store_length in Hd. destruct Hd as [Hd Hlen].
  apply IH; cbn [pSrc pDst dst]; [lia|].
  rewrite Hlen. lia.
Qed.

End ConjMore.

Import ConjMore.

(** X7.  The kernel does not see a conjugation that saturates nothing: on
    [numSamples >= 1] complex samples none of whose imaginary parts is
    [INT8_MIN], the RMS kernel over the [2 * numSamples] cells that the
    conjugate kernel wrote stores what it stores over the source cells (or
    both are undefined), for every shift count. *)
Theorem X7_rms_of_conjugate :
  forall unroll mem dst0 numSamples fracBits,
    Forall int8 mem ->
    Forall int8 dst0 ->
    0 <= fracBits ->
    1 <= numSamples ->
    2 * numSamples <= Z.of_nat (length mem) ->
    2 * numSamples <= Z.of_nat (length dst0) ->
    2 * numSamples < 2 ^ 32 ->
    (forall k, Z.of_nat k < numSamples -> nth (2 * k + 1) mem 0 <> INT8_MIN) ->
    exists out,
      Conj.plp_cmplx_conj_i8_rv32im mem dst0 numSamples = Some out
      /\ plp_rms_q8s_rv32im unroll out 0 (2 * numSamples) fracBits
         = plp_rms_q8s_rv32im unroll mem 0 (2 * numSamples) fracBits.
Proof.
  intros unroll mem dst0 n f Hmem Hdst Hf Hn Hlm Hld Hfit Himag.
  assert (Hpre : Forall int8 (firstn (Z.to_nat (2 * n)) mem))
    by (now apply Forall_firstn).
  pose proof (ConjFacts.conj_kernel_value mem dst0 n Hpre ltac:(lia) Hlm Hld Hfit)
    as Hrun.
  destruct (conj_run mem dst0 n Hpre ltac:(lia) Hlm Hld Hfit)
    as (out & Hrun' & Hfirst & Hlen & _).
  exists out. split; [exact Hrun'|].
  assert (Hout : Forall int8 out).
  { rewrite Hrun in Hrun'. injection Hrun' as <-.
    apply Forall_app. split.
    - now apply ConjFacts.conj_from_int8.
    - now apply Forall_skipn. }
  destruct (Z_lt_le_dec f 32) as [Hlt|Hge].
  - rewrite !rms_kernel_value by (try assumption; lia).
    unfold Spec.accu, Spec.slice. cbn [Z.to_nat skipn].
    rewrite Hfirst, conj_from_squares; [reflexivity|].
    apply imag_positions; [lia | assumption].
  - rewrite !kernel_bad_shift by lia. reflexivity.
Qed.

(** Two complex samples, 3 - 4i and 5 + 12i. *)
Lemma X7_witness :
  (Forall int8 [3; -4; 5; 12] /\ Forall int8 [0; 0; 0; 0] /\ 1 <= 2)
  /\ exists out,
      Conj.plp_cmplx_conj_i8_rv32im [3; -4; 5; 12] [0; 0; 0; 0] 2 = Some out
      /\ plp_rms_q8s_rv32im false out 0 (2 * 2) 0
         = plp_rms_q8s_rv32im false [3; -4; 5; 12] 0 (2 * 2) 0.
Proof.
  assert (H4 : Forall int8 [3; -4; 5; 12])
    by (repeat constructor; unfold int8, INT8_MIN, INT8_MAX; lia).
  assert (H0 : Forall int8 [0; 0; 0; 0])
    by (repeat constructor; unfold int8, INT8_MIN, INT8_MAX; lia).
  split; [split; [exact H4 | split; [exact H0 | lia]]|].
  apply (X7_rms_of_conjugate false [3; -4; 5; 12] [0; 0; 0; 0] 2 0 H4 H0);
    try (cbn; lia).
  intros [|[|k]] Hk; cbn; unfold INT8_MIN; lia.
Defined.

(** X8.  The conjugate kernel stores values of [int8_t], and never
    [INT8_MIN] as an imaginary part: every imaginary part of the output
    lies between -127 and 127. *)
Theorem X8_conj_output_range :
  forall mem dst0 numSamples,
    Forall int8 mem ->
    0 <= numSamples ->
    2 * numSamples <= Z.of_nat (length mem) ->
    2 * numSamples <= Z.of_nat (length dst0) ->
    2 * numSamples < 2 ^ 32 ->
    exists out,
      Conj.plp_cmplx_conj_i8_rv32im mem dst0 numSamples = Some out
      /\ forall k, Z.of_nat k < numSamples ->
           int8 (nth (2 * k) out 0)
           /\ - INT8_MAX <= nth (2 * k + 1) out 0 <= INT8_MAX.
Proof.
  intros mem dst0 n Hmem Hn Hlm Hld Hfit.
  assert (Hpre : Forall int8 (firstn (Z.to_nat (2 * n)) mem))
    by (now apply Forall_firstn).
  pose proof (ConjFacts.conj_kernel_value mem dst0 n Hpre Hn Hlm Hld Hfit) as Hrun.
  destruct (ConjFacts.conj_kernel_nth mem dst0 n _ Hpre Hn Hlm Hld Hfit Hrun)
    as (_ & _ & Hidx & _).
  eexists. split; [exact Hrun|].
  intros k Hk. destruct (Hidx k Hk) as [-> ->].
  pose proof (proj1 (Forall_nth int8 mem) Hmem) as Hnth.
  split.
  - apply Hnth. lia.
  - assert (Him : int8 (nth (2 * k + 1) mem 0)) by (apply Hnth; lia).
    unfold int8, Spec.conj_imag, INT8_MIN, INT8_MAX in *.
    destruct (nth (2 * k + 1) mem 0 =? -128) eqn:E; [lia|].
    apply Z.eqb_neq in E. lia.
Qed.

(** The imaginary part [INT8_MIN] comes out as 127. *)
Lemma X8_witness :
  (Forall int8 [1; -128] /\ 0 <= 1 /\ 2 * 1 < 2 ^ 32)
  /\ exists out,
      Conj.plp_cmplx_conj_i8_rv32im [1; -128] [0; 0] 1 = Some out
      /\ - INT8_MAX <= nth 1 out 0 <= INT8_MAX.
Proof.
  assert (H2 : Forall int8 [1; -128])
    by (repeat constructor; unfold int8, INT8_MIN, INT8_MAX; lia).
  split; [split; [exact H2 | lia]|].
  destruct (X8_conj_output_range [1; -128] [0; 0] 1 H2
              ltac:(lia) ltac:(cbn; lia) ltac:(cbn; lia) ltac:(lia))
    as (out & Hrun & Hidx).
  exists out. split; [exact Hrun|].
  exact (proj2 (Hidx 0%nat ltac:(lia))).
Defined.

(** X9.  Conjugating twice gives back the [2 * numSamples] source cells
    exactly when no imaginary part of the source is [INT8_MIN]. *)
Theorem X9_conj_twice_identity_iff :
  forall mem dst0 dst1 numSamples,
    Forall int8 mem ->
    0 <= numSamples ->
    2 * numSamples <= Z.of_nat (length mem) ->
    2 * numSamples <= Z.of_nat (length dst0) ->
    2 * numSamples <= Z.of_nat (length dst1) ->
    2 * numSamples < 2 ^ 32 ->
    exists out1 out2,
      Conj.plp_cmplx_conj_i8_rv32im mem dst0 numSamples = Some out1
      /\ Conj.plp_cmplx_conj_i8_rv32im out1 dst1 numSamples = Some out2
      /\ (firstn (Z.to_nat (2 * numSamples)) out2
          = firstn (Z.to_nat (2 * numSamples)) mem
          <-> forall k, Z.of_nat k < numSamples ->
                nth (2 * k + 1) mem 0 <> INT8_MIN).
Proof.
  intros mem dst0 dst1 n Hmem Hn Hlm Hld0 Hld1 Hfit.
  assert (Hpre : Forall int8 (firstn (Z.to_nat (2 * n)) mem))
    by (now apply Forall_firstn).
  destruct (conj_run mem dst0 n Hpre Hn Hlm Hld0 Hfit)
    as (out1 & Hrun1 & Hfirst1 & Hlen1 & Hout1).
  destruct (conj_run out1 dst1 n Hout1 Hn ltac:(lia) Hld1 Hfit)
    as (out2 & Hrun2 & Hfirst2 & _ & _).
  exists out1, out2. split; [exact Hrun1 | split; [exact Hrun2|]].
  rewrite Hfirst2, Hfirst1.
  set (xs := firstn (Z.to_nat (2 * n)) mem) in *.
  assert (Hxs : length xs = Z.to_nat (2 * n))
    by (unfold xs; rewrite length_firstn; lia).
  split.
  - intros Heq k Hk Hmin.
    apply (f_equal (fun l => nth (2 * k + 1) l 0)) in Heq.
    rewrite !ConjFacts.conj_from_nth in Heq
      by (rewrite ?ConjFacts.conj_from_length; lia).
    replace (Nat.even (2 * k + 1)) with false in Heq
      by (symmetry; rewrite Nat.add_comm, Nat.even_add_mul_2; reflexivity).
    cbn [Bool.eqb] in Heq. unfold xs in Heq. rewrite nth_firstn in Heq.
    replace (2 * k + 1 <? Z.to_nat (2 * n))%nat with true in Heq
      by (symmetry; apply Nat.ltb_lt; lia).
    rewrite Hmin in Heq. discriminate.
  - intros Himag. apply conj_from_twice; [exact Hpre|].
    apply imag_positions; assumption.
Qed.

(** The imaginary part -4 comes back. *)
Lemma X9_witness :
  (Forall int8 [3; -4] /\ 0 <= 1 /\ 2 * 1 < 2 ^ 32)
  /\ exists out1 out2,
      Conj.plp_cmplx_conj_i8_rv32im [3; -4] [0; 0] 1 = Some out1
      /\ Conj.plp_cmplx_conj_i8_rv32im out1 [0; 0] 1 = Some out2
      /\ firstn (Z.to_nat (2 * 1)) out2 = firstn (Z.to_nat (2 * 1)) [3; -4].
Proof.
  assert (H2 : Forall int8 [3; -4])
    by (repeat constructor; unfold int8, INT8_MIN, INT8_MAX; lia).
  split; [split; [exact H2 | lia]|].
  destruct (X9_conj_twice_identity_iff [3; -4] [0; 0] [0; 0] 1 H2
              ltac:(lia) ltac:(cbn; lia) ltac:(cbn; lia) ltac:(cbn; lia)
              ltac:(lia))
    as (out1 & out2 & Hrun1 & Hrun2 & Hiff).
  exists out1, out2. split; [exact Hrun1 | split; [exact Hrun2|]].
  apply Hiff. intros [|k] Hk; [cbn; unfold INT8_MIN; lia | lia].
Defined.

(** X10.  Conjugating three times is conjugating once, on every vector of
    [int8_t] cells: the third call writes what the first wrote. *)
Theorem X10_conj_thrice :
  forall mem dst0 dst1 dst2 numSamples,
    Forall int8 mem ->
    0 <= numSamples ->
    2 * numSamples <= Z.of_nat (length mem) ->
    2 * numSamples <= Z.of_nat (length dst0) ->
    2 * numSamples <= Z.of_nat (length dst1) ->
    2 * numSamples <= Z.of_nat (length dst2) ->
    2 * numSamples < 2 ^ 32 ->
    exists out1 out2 out3,
      Conj.plp_cmplx_conj_i8_rv32im mem dst0 numSamples = Some out1
      /\ Conj.plp_cmplx_conj_i8_rv32im out1 dst1 numSamples = Some out2
      /\ Conj.plp_cmplx_conj_i8_rv32im out2 dst2 numSamples = Some out3
      /\ firstn (Z.to_nat (2 * numSamples)) out3
         = firstn (Z.to_nat (2 * numSamples)) out1.
Proof.
  intros mem dst0 dst1 dst2 n Hmem Hn Hlm Hld0 Hld1 Hld2 Hfit.
  assert (Hpre : Forall int8 (firstn (Z.to_nat (2 * n)) mem))
    by (now apply Forall_firstn).
  destruct (conj_run mem dst0 n Hpre Hn Hlm Hld0 Hfit)
    as (out1 & Hrun1 & Hfirst1 & Hlen1 & Hout1).
  destruct (conj_run out1 dst1 n Hout1 Hn ltac:(lia) Hld1 Hfit)
    as (out2 & Hrun2 & Hfirst2 & Hlen2 & Hout2).
  destruct (conj_run out2 dst2 n Hout2 Hn ltac:(lia) Hld2 Hfit)
    as (out3 & Hrun3 & Hfirst3 & _ & _).
  exists out1, out2, out3.
  split; [exact Hrun1 | split; [exact Hrun2 | split; [exact Hrun3|]]].
  rewrite Hfirst3, Hfirst2, Hfirst1. now apply conj_from_thrice.
Qed.

(** The saturated part: -128, 127, -127, 127. *)
Lemma X10_witness :
  (Forall int8 [1; -128] /\ 0 <= 1 /\ 2 * 1 < 2 ^ 32)
  /\ exists out1 out2 out3,
      Conj.plp_cmplx_conj_i8_rv32im [1; -128] [0; 0] 1 = Some out1
      /\ Conj.plp_cmplx_conj_i8_rv32im out1 [0; 0] 1 = Some out2
      /\ Conj.plp_cmplx_conj_i8_rv32im out2 [0; 0] 1 = Some out3
      /\ firstn (Z.to_nat (2 * 1)) out3 = firstn (Z.to_nat (2 * 1)) out1.
Proof.
  assert (H2 : Forall int8 [1; -128])
    by (repeat constructor; unfold int8, INT8_MIN, INT8_MAX; lia).
  split; [split; [exact H2 | lia]|].
  exact (X10_conj_thrice [1; -128] [0; 0] [0; 0] [0; 0] 1 H2
           ltac:(lia) ltac:(cbn; lia) ltac:(cbn; lia) ltac:(cbn; lia)
           ltac:(cbn; lia) ltac:(lia)).
Defined.

(** X11.  For [2 * numSamples] within [uint32_t], the conjugate kernel is
    undefined exactly when the source or the destination holds fewer than
    [2 * numSamples] cells; it checks neither. *)
Theorem X11_conj_defined_iff :
  forall mem dst0 numSamples,
    Forall int8 mem ->
    0 <= numSamples ->
    2 * numSamples < 2 ^ 32 ->
    (Conj.plp_cmplx_conj_i8_rv32im mem dst0 numSamples = None
     <-> Z.of_nat (length mem) < 2 * numSamples
         \/ Z.of_nat (length dst0) < 2 * numSamples).
Proof.
  intros mem dst0 n Hmem Hn Hfit. split.
  - intros Hnone.
    destruct (Z_lt_le_dec (Z.of_nat (length mem)) (2 * n)) as [|Hlm];
      [now left|].
    destruct (Z_lt_le_dec (Z.of_nat (length dst0)) (2 * n)) as [|Hld];
      [now right|].
    rewrite ConjFacts.conj_kernel_value in Hnone
      by (try assumption; now apply Forall_firstn).
    discriminate.
  - intros Hout. unfold Conj.plp_cmplx_conj_i8_rv32im.
    rewrite u32_small by lia.
    rewrite loop_overrun; [reflexivity | lia |].
    cbn [Conj.pSrc Conj.pDst Conj.dst]. lia.
Qed.

(** A destination of three cells for two complex samples. *)
Lemma X11_witness :
  (Forall int8 [1; 2; 3; 4] /\ 0 <= 2 /\ 2 * 2 < 2 ^ 32)
  /\ Conj.plp_cmplx_conj_i8_rv32im [1; 2; 3; 4] [0; 0; 0] 2 = None.
Proof.
  assert (H4 : Forall int8 [1; 2; 3; 4])
    by (repeat constructor; unfold int8, INT8_MIN, INT8_MAX; lia).
  split; [split; [exact H4 | lia]|].
  apply (proj2 (X11_conj_defined_iff [1; 2; 3; 4] [0; 0; 0] 2 H4 ltac:(lia)
                  ltac:(lia))).
  right. cbn. lia.
Defined.

(** ** The worker's slices *)

Module WorkerMore.

(** [blockSizeP], the ceiling of [blockSize / nPE]. *)
Lemma blockSizeP_ceil b n :
  1 <= b -> 1 <= n ->
  ((b + n - 1) / n - 1) * n < b <= (b + n - 1) / n * n
  /\ 1 <= (b + n - 1) / n.
Proof.
  intros Hb Hn.
  pose proof (Z.div_mod (b + n - 1) n ltac:(lia)) as E.
  pose proof (Z.mod_pos_bound (b + n - 1) n ltac:(lia)) as R.
  nia.
Qed.

(** The slice of a core, without the undefined-behaviour monad. *)
Lemma slice_value p b f r n c :
  1 <= b -> 1 <= n -> b + n - 1 < 2 ^ 32 -> 0 <= c < n ->
  slice {| pSrc := p; blockSize := b; fracBits := f; pRes := r; nPE := n |} c
  = Some (p + c * ((b + n - 1) / n),
          if c =? n - 1
          then if b mod n =? 0 then (b + n - 1) / n else b mod ((b + n - 1) / n)
          else (b + n - 1) / n).
Proof.
  intros Hb Hn Hfit Hc.
  destruct (blockSizeP_ceil b n Hb Hn) as [Hceil HP].
  set (P := (b + n - 1) / n) in *.
  unfold slice, divu32, remu32. cbn [Cluster.blockSize Cluster.nPE Cluster.pSrc].
  rewrite (u32_small (b + n - 1)) by lia.
  replace (n =? 0) with false by settle_guard.
  cbn [bind]. fold P.
  rewrite (u32_small (c * P)) by nia.
  destruct (c =? n - 1); cbn [bind]; [|reflexivity].
  destruct (b mod n =? 0); cbn [bind]; [reflexivity|].
  replace (P =? 0) with false by settle_guard.
  reflexivity.
Qed.

(** When [nPE] divides [blockSize], [blockSizeP] is the exact quotient. *)
Lemma blockSizeP_exact b n :
  1 <= b -> 1 <= n -> b mod n = 0 -> b = n * ((b + n - 1) / n).
Proof.
  intros Hb Hn Hmod.
  destruct (blockSizeP_ceil b n Hb Hn) as [Hceil _].
  pose proof (Z.div_mod b n ltac:(lia)) as E. rewrite Hmod in E.
  set (P := (b + n - 1) / n) in *. set (q := b / n) in *.
  assert (H1 : P - 1 < q)
    by (apply (Z.mul_lt_mono_pos_r n); lia).
  assert (H2 : q <= P)
    by (apply (Z.mul_le_mono_pos_r _ _ n); lia).
  assert (q = P) by lia. subst q. lia.
Qed.

(** What is left for the last core when the other cores leave something. *)
Lemma last_remainder b n :
  1 <= b -> 1 <= n -> b mod n <> 0 ->
  (n - 1) * ((b + n - 1) / n) < b ->
  b mod ((b + n - 1) / n) = b - (n - 1) * ((b + n - 1) / n).
Proof.
  intros Hb Hn Hmod Hless.
  destruct (blockSizeP_ceil b n Hb Hn) as [Hceil HP].
  set (P := (b + n - 1) / n) in *.
  assert (Hne : b <> n * P).
  { intros E. apply Hmod. rewrite E, Z.mul_comm. apply Z.mod_mul. lia. }
  symmetry. apply (Z.mod_unique b P (n - 1)); lia.
Qed.

End WorkerMore.

Import WorkerMore.

(** X12.  For a descriptor with [blockSize >= 1], [nPE >= 1] and no wrap
    of [blockSize + nPE - 1], every core gets a non-empty slice inside
    the block exactly when [nPE] divides [blockSize] or the cores before
    the last leave something, [(nPE - 1) * blockSizeP < blockSize]; in
    every other case the last core's slice is empty or a core reads past
    the block. *)
Theorem X12_slices_safe_iff :
  forall pSrc blockSize fracBits pRes nPE,
    1 <= blockSize ->
    1 <= nPE ->
    blockSize + nPE - 1 < 2 ^ 32 ->
    ((forall core_id,
         0 <= core_id < nPE ->
         exists off len,
           slice {| pSrc := pSrc; blockSize := blockSize; fracBits := fracBits;
                    pRes := pRes; nPE := nPE |} core_id = Some (off, len)
           /\ 1 <= len
           /\ pSrc <= off
           /\ off + len <= pSrc + blockSize)
     <-> blockSize mod nPE = 0
         \/ (nPE - 1) * ((blockSize + nPE - 1) / nPE) < blockSize).
Proof.
  intros p b f r n Hb Hn Hfit.
  destruct (blockSizeP_ceil b n Hb Hn) as [Hceil HP].
  split.
  - intros Hall.
    destruct (Hall (n - 1) ltac:(lia)) as (off & len & Hs & Hlen & _ & Hend).
    rewrite slice_value in Hs by lia.
    rewrite Z.eqb_refl in Hs.
    destruct (b mod n =? 0) eqn:E; [left; now apply Z.eqb_eq|].
    right. injection Hs as <- <-.
    lia.
  - intros Hgood c Hc.
    rewrite slice_value by lia.
    eexists. eexists. split; [reflexivity|].
    set (P := (b + n - 1) / n) in *.
    destruct (c =? n - 1) eqn:Ec.
    + apply Z.eqb_eq in Ec. subst c.
      destruct (b mod n =? 0) eqn:E.
      * apply Z.eqb_eq in E.
        pose proof (blockSizeP_exact b n Hb Hn E) as Eb. fold P in Eb. nia.
      * apply Z.eqb_neq in E. destruct Hgood as [|Hless]; [contradiction|].
        pose proof (last_remainder b n Hb Hn E Hless) as Er. fold P in Er.
        rewrite Er. nia.
    + apply Z.eqb_neq in Ec. destruct Hgood as [E|Hless].
      * pose proof (blockSizeP_exact b n Hb Hn E) as Eb. fold P in Eb. nia.
      * nia.
Qed.

(** Five samples on four cores: the condition fails and core 2 would
    read offset 5. *)
Lemma X12_witness :
  (1 <= 5 /\ 1 <= 4 /\ 5 + 4 - 1 < 2 ^ 32)
  /\ ~ (forall core_id,
          0 <= core_id < 4 ->
          exists off len,
            slice {| pSrc := 0; blockSize := 5; fracBits := 0; pRes := Scratch;
                     nPE := 4 |} core_id = Some (off, len)
            /\ 1 <= len
            /\ 0 <= off
            /\ off + len <= 0 + 5).
Proof.
  split; [lia|].
  intros Hall.
  apply (proj1 (X12_slices_safe_iff 0 5 0 Scratch 4 ltac:(lia) ltac:(lia)
                  ltac:(lia))) in Hall.
  cbn in Hall. lia.
Defined.

(** X13.  When [nPE] divides [blockSize], or [blockSize] is above
    [(nPE - 1)^2], the slices tile the block: every core before the last
    gets [blockSizeP] samples from offset [core_id * blockSizeP], and the
    last core gets the rest, from [(nPE - 1) * blockSizeP] up to the end
    of the block, at least one sample and at most [blockSizeP]. *)
Theorem X13_slices_tile :
  forall pSrc blockSize fracBits pRes nPE,
    1 <= blockSize ->
    1 <= nPE ->
    blockSize + nPE - 1 < 2 ^ 32 ->
    blockSize mod nPE = 0 \/ (nPE - 1) * (nPE - 1) < blockSize ->
    (forall core_id,
        0 <= core_id < nPE - 1 ->
        slice {| pSrc := pSrc; blockSize := blockSize; fracBits := fracBits;
                 pRes := pRes; nPE := nPE |} core_id
        = Some (pSrc + core_id * ((blockSize + nPE - 1) / nPE),
                (blockSize + nPE - 1) / nPE))
    /\ slice {| pSrc := pSrc; blockSize := blockSize; fracBits := fracBits;
                pRes := pRes; nPE := nPE |} (nPE - 1)
       = Some (pSrc + (nPE - 1) * ((blockSize + nPE - 1) / nPE),
               blockSize - (nPE - 1) * ((blockSize + nPE - 1) / nPE))
    /\ 1 <= blockSize - (nPE - 1) * ((blockSize + nPE - 1) / nPE)
       <= (blockSize + nPE - 1) / nPE.
Proof.
  intros p b f r n Hb Hn Hfit Hgood.
  destruct (blockSizeP_ceil b n Hb Hn) as [Hceil HP].
  split; [|split].
  - intros c Hc. rewrite slice_value by lia.
    replace (c =? n - 1) with false by settle_guard. reflexivity.
  - rewrite slice_value by lia. rewrite Z.eqb_refl.
    destruct (b mod n =? 0) eqn:E.
    + apply Z.eqb_eq in E.
      pose proof (blockSizeP_exact b n Hb Hn E) as Eb.
      do 2 f_equal. lia.
    + apply Z.eqb_neq in E. destruct Hgood as [|Hsq]; [contradiction|].
      rewrite last_remainder; [reflexivity | lia | lia | assumption |].
      set (P := (b + n - 1) / n) in *.
      pose proof (Z.div_mod (b + n - 1) n ltac:(lia)) as Ed.
      pose proof (Z.mod_pos_bound (b + n - 1) n ltac:(lia)) as Rd.
      fold P in Ed. nia.
  - set (P := (b + n - 1) / n) in *.
    destruct (Z.eq_dec (b mod n) 0) as [E|E].
    + pose proof (blockSizeP_exact b n Hb Hn E) as Eb. fold P in Eb. lia.
    + destruct Hgood as [|Hsq]; [contradiction|].
      pose proof (Z.div_mod (b + n - 1) n ltac:(lia)) as Ed.
      pose proof (Z.mod_pos_bound (b + n - 1) n ltac:(lia)) as Rd.
      fold P in Ed. nia.
Qed.

(** Ten samples on four cores: 3, 3, 3 and 1. *)
Lemma X13_witness :
  (1 <= 10 /\ 1 <= 4 /\ (4 - 1) * (4 - 1) < 10)
  /\ slice {| pSrc := 0; blockSize := 10; fracBits := 0; pRes := Scratch;
              nPE := 4 |} (4 - 1)
     = Some (0 + (4 - 1) * ((10 + 4 - 1) / 4), 10 - (4 - 1) * ((10 + 4 - 1) / 4)).
Proof.
  split; [lia|].
  assert (Hsq : 10 mod 4 = 0 \/ (4 - 1) * (4 - 1) < 10) by (right; lia).
  exact (proj1 (proj2 (X13_slices_tile 0 10 0 Scratch 4 ltac:(lia) ltac:(lia)
                         ltac:(lia) Hsq))).
Defined.

(** ** The dispatcher *)

Module DispatchMore.

(** A team whose descriptor holds the null pointer is undefined at its
    first core, whatever the kernel computes. *)
Lemma team_through_null kernel mem S n first m :
  pRes S = NULL ->
  (1 <= n)%nat ->
  run_team n first (plp_rms_q8p_xpulpv2 kernel mem S) m = None.
Proof.
  intros HS Hn. destruct n as [|n]; [lia|].
  cbn [run_team]. unfold plp_rms_q8p_xpulpv2. rewrite HS.
  destruct (partial kernel mem S first); reflexivity.
Qed.

(** A store through a pointer of the dispatcher changes neither the logs
    nor the global. *)
Lemma assign_frame p off v m m' :
  assign p off v m = Some m' ->
  allocs m' = allocs m /\ teams m' = teams m
  /\ resultsBuffer m' = resultsBuffer m.
Proof.
  destruct p; cbn [assign]; try discriminate.
  - destruct (off =? 0); [|discriminate]. intros [= <-]. now repeat split.
  - destruct (store _ _ _); cbn [bind]; [|discriminate].
    intros [= <-]. now repeat split.
Qed.

Lemma run_team_frame kernel mem S n : forall first m m',
  run_team n first (plp_rms_q8p_xpulpv2 kernel mem S) m = Some m' ->
  allocs m' = allocs m /\ teams m' = teams m
  /\ resultsBuffer m' = resultsBuffer m.
Proof.
  induction n as [|n IH]; intros first m m'; cbn [run_team].
  - intros [= <-]. now repeat split.
  - unfold plp_rms_q8p_xpulpv2 at 1.
    destruct (partial kernel mem S first) as [v|]; cbn [bind]; [|discriminate].
    destruct (assign (pRes S) first v m) as [m1|] eqn:Ha; cbn [bind];
      [|discriminate].
    intros Hrun. apply IH in Hrun. apply assign_frame in Ha.
    destruct Hrun as (-> & -> & ->). exact Ha.
Qed.

(** The truncated mean of values between [lo] and [hi] lies between [lo]
    and [hi]. *)
Lemma mean_between s n lo hi :
  1 <= n -> n * lo <= s <= n * hi -> lo <= Z.quot s n <= hi.
Proof.
  intros Hn Hs.
  destruct (Z_lt_le_dec s 0) as [Hneg|Hpos].
  - pose proof (Z.quot_opp_l (- s) n ltac:(lia)) as E.
    rewrite Z.opp_involutive in E. rewrite E.
    rewrite Z.quot_div_nonneg by lia.
    assert (- s / n <= - lo) by (apply Z.div_le_upper_bound; lia).
    assert (0 <= - s / n) by (apply Z.div_pos; lia).
    assert (hi < 0 -> - hi <= - s / n)
      by (intros; apply Z.div_le_lower_bound; lia).
    lia.
  - rewrite Z.quot_div_nonneg by lia.
    assert (s / n <= hi) by (apply Z.div_le_upper_bound; lia).
    assert (0 <= s / n) by (apply Z.div_pos; lia).
    assert (0 < lo -> lo <= s / n)
      by (intros; apply Z.div_le_lower_bound; lia).
    lia.
Qed.

Lemma sum_between lo hi ps :
  Forall (fun p => lo <= p <= hi) ps ->
  Z.of_nat (length ps) * lo <= Spec.sum ps <= Z.of_nat (length ps) * hi.
Proof.
  induction 1 as [|p ps Hp _ IH]; cbn [Spec.sum fold_right length].
  - lia.
  - fold (Spec.sum ps). lia.
Qed.

End DispatchMore.

Import DispatchMore.

(** X14.  The dispatcher does not check what [rt_alloc] returns: on the
    cluster side with [nPE > 1], when the allocation fails the first
    worker stores through the null pointer and the call is undefined,
    whatever the kernel and the vector. *)
Theorem X14_allocation_failure_unchecked :
  forall kernel mem rt pSrc blockSize fracBits nPE m,
    rt_cluster_id rt <> ARCHI_FC_CID rt ->
    1 < nPE ->
    rt_alloc_ok rt nPE = false ->
    plp_rms_q8_parallel kernel mem rt pSrc blockSize fracBits nPE m = None.
Proof.
  intros kernel mem rt p b f n m Hctx Hn Hfail. cluster_branch.
  replace (1 <? n) with true by settle_guard.
  unfold rt_alloc. rewrite Hfail. unfold rt_team_fork.
  rewrite team_through_null; [reflexivity | reflexivity | lia].
Qed.

(** A cluster with no scratch memory left. *)
Lemma X14_witness :
  (rt_cluster_id {| ARCHI_FC_CID := 32; rt_cluster_id := 0;
                    rt_alloc_ok := fun _ => false; cl_junk := fun _ => 0 |}
   <> 32
   /\ 1 < 2)
  /\ plp_rms_q8_parallel plp_rms_q8s_xpulpv2 ones
       {| ARCHI_FC_CID := 32; rt_cluster_id := 0;
          rt_alloc_ok := fun _ => false; cl_junk := fun _ => 0 |}
       0 8 0 2 before
     = None.
Proof.
  split; [cbn; lia|].
  apply X14_allocation_failure_unchecked; [cbn; lia | lia | reflexivity].
Defined.

(** X15.  A call from the cluster side that returns has printed nothing
    and has started one team, of [nPE] cores.  With [nPE > 1] it has asked
    [rt_alloc] once, for [nPE] bytes, and leaves the global
    [resultsBuffer] pointing at that block, which it does not release;
    otherwise it has allocated nothing and leaves the global pointing at
    the caller's cell. *)
Theorem X15_effects_of_a_call :
  forall kernel mem rt pSrc blockSize fracBits nPE m m',
    rt_cluster_id rt <> ARCHI_FC_CID rt ->
    plp_rms_q8_parallel kernel mem rt pSrc blockSize fracBits nPE m = Some m' ->
    console m' = console m
    /\ teams m' = teams m ++ [nPE]
    /\ (1 < nPE ->
        allocs m' = allocs m ++ [nPE] /\ resultsBuffer m' = Scratch)
    /\ (nPE <= 1 ->
        allocs m' = allocs m /\ resultsBuffer m' = Caller).
Proof.
  intros kernel mem rt p b f n m m' Hctx Hrun.
  split; [eapply cluster_side_silent; eassumption|].
  revert Hrun. cluster_branch.
  destruct (1 <? n) eqn:Hn.
  - apply Z.ltb_lt in Hn. unfold rt_alloc.
    destruct (rt_alloc_ok rt n) eqn:Hok.
    + unfold rt_team_fork, set_resultsBuffer.
      cbn [console result cl_data resultsBuffer allocs teams].
      destruct (run_team _ _ _ _) as [m2|] eqn:Ht; cbn [bind]; [|discriminate].
      apply run_team_frame in Ht.
      cbn [allocs teams resultsBuffer] in Ht. destruct Ht as (Ha & Hts & Hr).
      destruct (iter _ _ _); cbn [bind]; [|discriminate].
      destruct (divs32 _ _); cbn [bind]; [|discriminate].
      intros Hfin. apply assign_frame in Hfin. destruct Hfin as (-> & -> & ->).
      split; [exact Hts|]. split; [intros _; now split | lia].
    + unfold rt_team_fork. rewrite team_through_null; [discriminate | reflexivity | lia].
  - apply Z.ltb_ge in Hn.
    unfold rt_team_fork, set_resultsBuffer.
    cbn [console result cl_data resultsBuffer allocs teams].
    destruct (run_team _ _ _ _) as [m2|] eqn:Ht; cbn [bind]; [|discriminate].
    apply run_team_frame in Ht.
    cbn [allocs teams resultsBuffer] in Ht. destruct Ht as (Ha & Hts & Hr).
    destruct (fetch _ _ _); cbn [bind]; [|discriminate].
    intros Hfin. apply assign_frame in Hfin. destruct Hfin as (-> & -> & ->).
    split; [exact Hts|]. split; [lia | intros _; now split].
Qed.

(** Eight ones on two cores. *)
Lemma X15_witness :
  rt_cluster_id cluster_side <> ARCHI_FC_CID cluster_side
  /\ exists m',
      plp_rms_q8_parallel plp_rms_q8s_xpulpv2 ones cluster_side 0 8 0 2 before
      = Some m'
      /\ teams m' = [2]
      /\ allocs m' = [2]
      /\ resultsBuffer m' = Scratch.
Proof.
  assert (Hctx : rt_cluster_id cluster_side <> ARCHI_FC_CID cluster_side)
    by (cbn; lia).
  split; [exact Hctx|].
  eexists. split; [reflexivity|].
  destruct (X15_effects_of_a_call plp_rms_q8s_xpulpv2 ones cluster_side 0 8 0 2
              before _ Hctx eq_refl)
    as (_ & Hteams & Hmany & _).
  destruct (Hmany ltac:(lia)) as [Hall Hbuf].
  split; [exact Hteams | split; [exact Hall | exact Hbuf]].
Defined.

(** X16.  On the cluster side with [nPE > 1], when the results buffer is
    allocated and every worker is defined, the value the dispatcher
    leaves in the caller's cell lies between the smallest and the largest
    partial result: if all partial results lie in [lo, hi], within the
    [int8_t] range, so does the final value; equal partial results are
    returned unchanged. *)
Theorem X16_result_between_partials :
  forall kernel mem rt pSrc blockSize fracBits nPE m ps lo hi,
    rt_cluster_id rt <> ARCHI_FC_CID rt ->
    1 < nPE <= 255 ->
    rt_alloc_ok rt nPE = true ->
    Forall2 (fun core_id p =>
               partial kernel mem
                 {| pSrc := pSrc; blockSize := blockSize; fracBits := fracBits;
                    pRes := Scratch; nPE := nPE |} core_id = Some p)
            (cores (Z.to_nat nPE) 0) ps ->
    INT8_MIN <= lo ->
    hi <= INT8_MAX ->
    Forall (fun p => lo <= p <= hi) ps ->
    exists m',
      plp_rms_q8_parallel kernel mem rt pSrc blockSize fracBits nPE m = Some m'
      /\ lo <= result m' <= hi
      /\ (lo = hi -> result m' = lo).
Proof.
  intros kernel mem rt p b f n m ps lo hi Hctx Hn Hok Hps Hlo Hhi Hin.
  eexists. split; [apply (parallel_many _ _ _ _ _ _ _ _ ps); assumption|].
  cbn [result].
  assert (Hl : Z.of_nat (length ps) = n).
  { apply Forall2_length in Hps. rewrite cores_length in Hps. lia. }
  pose proof (sum_between lo hi ps Hin) as Hs. rewrite Hl in Hs.
  unfold INT8_MIN, INT8_MAX in *.
  assert (Hlh : lo <= hi) by nia.
  rewrite s32_small by nia.
  pose proof (mean_between (Spec.sum ps) n lo hi ltac:(lia) Hs) as Hq.
  rewrite s8_small by lia.
  split; [exact Hq | lia].
Qed.

(** Eight ones on two cores: both partial results are 1. *)
Lemma X16_witness :
  (rt_cluster_id cluster_side <> ARCHI_FC_CID cluster_side
   /\ 1 < 2 <= 255
   /\ INT8_MIN <= 1 /\ 1 <= INT8_MAX)
  /\ exists m',
      plp_rms_q8_parallel plp_rms_q8s_xpulpv2 ones cluster_side 0 8 0 2 before
      = Some m'
      /\ 1 <= result m' <= 1.
Proof.
  assert (Hctx : rt_cluster_id cluster_side <> ARCHI_FC_CID cluster_side)
    by (cbn; lia).
  split; [split; [exact Hctx | unfold INT8_MIN, INT8_MAX; lia]|].
  destruct (X16_result_between_partials plp_rms_q8s_xpulpv2 ones cluster_side
              0 8 0 2 before [1; 1] 1 1 Hctx ltac:(lia) eq_refl)
    as (m' & Hrun & Hres & _).
  - repeat constructor.
  - unfold INT8_MIN. lia.
  - unfold INT8_MAX. lia.
  - repeat constructor; lia.
  - exists m'. split; assumption.
Defined.

(** ** The parallel result against the single-core result *)

Module ParallelMore.

Lemma cores_snoc n : forall first,
  cores (S n) first = cores n first ++ [first + Z.of_nat n].
Proof.
  induction n as [|n IH]; intros first.
  - cbn. now rewrite Z.add_0_r.
  - change (cores (S (S n)) first) with (first :: cores (S n) (first + 1)).
    rewrite IH. cbn [cores app]. do 3 f_equal. lia.
Qed.

Lemma cores_range n : forall first c,
  In c (cores n first) -> first <= c < first + Z.of_nat n.
Proof.
  induction n as [|n IH]; intros first c; cbn [cores In]; [contradiction|].
  intros [<-|Hin]; [lia|]. apply IH in Hin. lia.
Qed.

Lemma Forall2_computed {A B} (R : A -> B -> Prop) (g : A -> B) cs :
  (forall c, In c cs -> R c (g c)) -> Forall2 R cs (map g cs).
Proof.
  induction cs as [|c cs IH]; intros H; cbn [map]; constructor.
  - apply H. now left.
  - apply IH. intros c' Hc'. apply H. now right.
Qed.

Lemma firstn_add {A} a b : forall l : list A,
  firstn (a + b) l = firstn a l ++ firstn b (skipn a l).
Proof.
  induction a as [|a IH]; intros [|x l]; cbn [Nat.add firstn skipn app];
    try reflexivity.
  - now rewrite firstn_nil.
  - now rewrite IH.
Qed.

Lemma sum_app xs ys : Spec.sum (xs ++ ys) = Spec.sum xs + Spec.sum ys.
Proof.
  unfold Spec.sum. induction xs as [|x xs IH]; cbn [app fold_right]; lia.
Qed.

(** The sums of the shifted squares over the first [k] slices of [L]
    samples, against the slices' quotients by [L]. *)
Lemma quotients_against_sum fracBits mem L k :
  0 <= fracBits ->
  1 <= L ->
  Forall int8 mem ->
  L * Spec.sum (map (fun c => Spec.sum (map (Spec.term fracBits)
                                          (Spec.slice mem (c * L) L)) / L)
                    (cores k 0))
  <= Spec.sum (map (Spec.term fracBits) (firstn (k * Z.to_nat L) mem))
  <= L * Spec.sum (map (fun c => Spec.sum (map (Spec.term fracBits)
                                             (Spec.slice mem (c * L) L)) / L)
                       (cores k 0))
     + Z.of_nat k * (L - 1).
Proof.
  intros Hf HL Hmem. induction k as [|k IH].
  - cbn. lia.
  - rewrite cores_snoc, map_app, sum_app. cbn [map]. rewrite Z.add_0_l.
    replace (S k * Z.to_nat L)%nat with (k * Z.to_nat L + Z.to_nat L)%nat by lia.
    rewrite firstn_add, map_app, sum_app.
    replace (firstn (Z.to_nat L) (skipn (k * Z.to_nat L) mem))
      with (Spec.slice mem (Z.of_nat k * L) L)
      by (unfold Spec.slice; do 2 f_equal; lia).
    set (Sk := Spec.sum (map (Spec.term fracBits)
                           (Spec.slice mem (Z.of_nat k * L) L))).
    assert (HSk : 0 <= Sk)
      by (apply (sum_bounds fracBits); [assumption | now apply slice_int8]).
    pose proof (Z.div_mod Sk L ltac:(lia)) as Ed.
    pose proof (Z.mod_pos_bound Sk L ltac:(lia)) as Er.
    replace (Spec.sum [Sk / L]) with (Sk / L) by (cbn; lia).
    rewrite Nat2Z.inj_succ. unfold Z.succ.
    rewrite Z.mul_add_distr_l, Z.mul_add_distr_r. lia.
Qed.

(** The quotient of the quotients against the quotient of the sum. *)
Lemma mean_of_quotients Q S n L :
  1 <= n -> 1 <= L -> 0 <= Q ->
  L * Q <= S <= L * Q + n * (L - 1) ->
  Q / n <= S / (n * L) <= Q / n + 1.
Proof.
  intros Hn HL HQ HS.
  rewrite (Z.mul_comm n L), <- Z.div_div by lia.
  assert (H1 : Q <= S / L) by (apply Z.div_le_lower_bound; lia).
  assert (H2 : S / L <= Q + n - 1).
  { assert (S / L < Q + n) by (apply Z.div_lt_upper_bound; nia). lia. }
  split.
  - apply Z.div_le_mono; lia.
  - apply Z.le_trans with ((Q + 1 * n) / n).
    + apply Z.div_le_mono; lia.
    + rewrite Z.div_add by lia. lia.
Qed.

End ParallelMore.

Import ParallelMore.

(** X17.  How far the parallel result is from the single-core result.
    Let the cluster kernel store what [plp_rms_q8s_rv32im] stores.  On a
    vector of fewer than 2^25 [int8_t] samples whose length [nPE > 1]
    divides, with a shift count from 8 to 31 (so that nothing wraps), the
    parallel entry point and the single-core kernel on the whole vector
    are both defined, and the parallel result is the single-core result
    or one below it: every worker truncates its own quotient before the
    dispatcher averages them. *)
Theorem X17_parallel_within_one :
  forall kernel unroll mem rt fracBits nPE m,
    (forall p len,
        kernel mem p len fracBits = plp_rms_q8s_rv32im unroll mem p len fracBits) ->
    rt_cluster_id rt <> ARCHI_FC_CID rt ->
    1 < nPE <= 255 ->
    rt_alloc_ok rt nPE = true ->
    Forall int8 mem ->
    8 <= fracBits < 32 ->
    1 <= Z.of_nat (length mem) < 2 ^ 25 ->
    Z.of_nat (length mem) mod nPE = 0 ->
    exists m' v,
      plp_rms_q8_parallel kernel mem rt 0 (Z.of_nat (length mem)) fracBits nPE m
      = Some m'
      /\ kernel mem 0 (Z.of_nat (length mem)) fracBits = Some v
      /\ result m' <= v <= result m' + 1.
Proof.
  intros kernel unroll mem rt f n m Hk Hctx Hn Hok Hmem Hf Hb Hmod.
  set (b := Z.of_nat (length mem)) in *.
  destruct (blockSizeP_ceil b n ltac:(lia) ltac:(lia)) as [_ HL].
  pose proof (blockSizeP_exact b n ltac:(lia) ltac:(lia) Hmod) as Eb.
  set (L := (b + n - 1) / n) in *.
  set (g := fun c => Spec.sum (map (Spec.term f) (Spec.slice mem (c * L) L)) / L).
  assert (Hcore : forall c, 0 <= c < n ->
            partial kernel mem
              {| pSrc := 0; blockSize := b; fracBits := f; pRes := Scratch;
                 nPE := n |} c = Some (g c)
            /\ 0 <= g c <= 64).
  { intros c Hc. unfold partial.
    rewrite slice_value by lia. fold L.
    replace (if c =? n - 1 then if b mod n =? 0 then L else b mod L else L)
      with L by (rewrite Hmod; cbn [Z.eqb]; now destruct (c =? n - 1)).
    cbn [bind Cluster.fracBits]. rewrite Z.add_0_l, Hk.
    destruct (kernel_shift8 unroll mem (c * L) L f Hmem Hf) as (Hv & _ & Hq);
      try nia.
    split; [exact Hv | exact Hq]. }
  set (ps := map g (cores (Z.to_nat n) 0)).
  assert (Hps : Forall2 (fun c p =>
                           partial kernel mem
                             {| pSrc := 0; blockSize := b; fracBits := f;
                                pRes := Scratch; nPE := n |} c = Some p)
                        (cores (Z.to_nat n) 0) ps).
  { apply Forall2_computed. intros c Hin. apply cores_range in Hin.
    apply Hcore. lia. }
  assert (Hrange : Forall (fun p => 0 <= p <= 64) ps).
  { apply Forall_forall. intros p Hin. apply in_map_iff in Hin.
    destruct Hin as (c & <- & Hin). apply cores_range in Hin.
    apply Hcore. lia. }
  assert (Hlen : Z.of_nat (length ps) = n)
    by (unfold ps; rewrite length_map, cores_length; lia).
  pose proof (sum_between 0 64 ps Hrange) as HQ. rewrite Hlen in HQ.
  pose proof (quotients_against_sum f mem L (Z.to_nat n) ltac:(lia) HL Hmem)
    as Hsum.
  fold g in Hsum. fold ps in Hsum.
  replace (Z.to_nat n * Z.to_nat L)%nat with (length mem) in Hsum by nia.
  rewrite firstn_all, Z2Nat.id in Hsum by lia.
  pose proof (mean_of_quotients (Spec.sum ps) _ n L ltac:(lia) HL ltac:(lia) Hsum)
    as Hmean.
  rewrite <- Eb in Hmean.
  destruct (kernel_shift8 unroll mem 0 b f Hmem Hf ltac:(lia) ltac:(lia)
              ltac:(lia)) as (Hwhole & _ & _).
  rewrite slice_whole in Hwhole.
  eexists. eexists.
  split; [apply (parallel_many _ _ _ _ _ _ _ _ ps); assumption|].
  split; [rewrite Hk; exact Hwhole|].
  cbn [result]. rewrite s32_small by lia.
  rewrite Z.quot_div_nonneg by lia.
  assert (0 <= Spec.sum ps / n <= 64)
    by (split; [apply Z.div_pos; lia | apply Z.div_le_upper_bound; lia]).
  rewrite s8_small by lia. exact Hmean.
Qed.

(** Shifted squares 4, 1, 1, 1 and 1, 0, 0, 0: the workers store 7 / 4 = 1
    and 1 / 4 = 0, the dispatcher 1 / 2 = 0, the single core 8 / 8 = 1. *)
Lemma X17_witness :
  (rt_cluster_id cluster_side <> ARCHI_FC_CID cluster_side
   /\ Forall int8 [32; 16; 16; 16; 16; 0; 0; 0]
   /\ 8 <= 8 < 32)
  /\ exists m' v,
      plp_rms_q8_parallel plp_rms_q8s_xpulpv2 [32; 16; 16; 16; 16; 0; 0; 0]
        cluster_side 0 8 8 2 before = Some m'
      /\ plp_rms_q8s_xpulpv2 [32; 16; 16; 16; 16; 0; 0; 0] 0 8 8 = Some v
      /\ result m' <= v <= result m' + 1
      /\ result m' = 0
      /\ v = 1.
Proof.
  assert (Hctx : rt_cluster_id cluster_side <> ARCHI_FC_CID cluster_side)
    by (cbn; lia).
  assert (H8 : Forall int8 [32; 16; 16; 16; 16; 0; 0; 0])
    by (repeat constructor; unfold int8, INT8_MIN, INT8_MAX; lia).
  split; [split; [exact Hctx | split; [exact H8 | lia]]|].
  destruct (X17_parallel_within_one plp_rms_q8s_xpulpv2 true
              [32; 16; 16; 16; 16; 0; 0; 0] cluster_side 8 2 before
              ltac:(reflexivity) Hctx ltac:(lia) eq_refl H8 ltac:(lia)
              ltac:(cbn; lia) eq_refl)
    as (m' & v & Hrun & Hv & Hbetween).
  exists m', v.
  split; [exact Hrun | split; [exact Hv | split; [exact Hbetween|]]].
  split.
  - vm_compute in Hrun. now injection Hrun as <-.
  - vm_compute in Hv. now injection Hv as <-.
Defined.

(** ** When the parallel call is defined *)

Module SafetyMore.

Lemma Forall2_chosen {A B} (R : A -> B -> Prop) cs :
  (forall c, In c cs -> exists p, R c p) -> exists ps, Forall2 R cs ps.
Proof.
  induction cs as [|c cs IH]; intros H.
  - exists []. constructor.
  - destruct (H c ltac:(now left)) as [p Hp].
    destruct IH as [ps Hps]; [intros c' Hc'; apply H; now right|].
    exists (p :: ps). now constructor.
Qed.

(** The kernel on an empty block divides by zero. *)
Lemma kernel_empty unroll mem pSrc fracBits :
  plp_rms_q8s_rv32im unroll mem pSrc 0 fracBits = None.
Proof. now destruct unroll. Qed.

(** On at most 131071 samples the shifted squares, none of them negative,
    have an exact sum below [2^31]: no addition to the accumulator
    overflows. *)
Lemma slice_sum_fits mem p len fracBits :
  Forall int8 mem ->
  0 <= fracBits ->
  len <= 131071 ->
  Forall (fun t => 0 <= t) (map (Spec.term fracBits) (Spec.slice mem p len))
  /\ Spec.sum (map (Spec.term fracBits) (Spec.slice mem p len)) < 2 ^ 31.
Proof.
  intros Hmem Hf Hlen.
  pose proof (slice_int8 mem p len Hmem) as Hall.
  split.
  - apply Forall_forall. intros t Ht. apply in_map_iff in Ht.
    destruct Ht as (x & <- & Hx). apply (term_le fracBits x Hf).
    rewrite Forall_forall in Hall. now apply Hall.
  - pose proof (sum_le fracBits _ Hf Hall) as Hs.
    assert (Hl : Z.of_nat (length (Spec.slice mem p len)) <= 131071).
    { unfold Spec.slice.
      pose proof (firstn_le_length (Z.to_nat len)
                    (skipn (Z.to_nat p) mem)).
      lia. }
    assert (H2 : 0 < 2 ^ fracBits) by (apply Z.pow_pos_nonneg; lia).
    assert (Ht : 0 <= 2 ^ 14 / 2 ^ fracBits <= 2 ^ 14).
    { split; [apply Z.div_pos; lia|].
      apply Z.div_le_upper_bound; [lia|nia]. }
    nia.
Qed.

End SafetyMore.

Import SafetyMore.

(** X18.  Which calls are defined.  Let the cluster kernel store what
    [plp_rms_q8s_rv32im] stores.  On the cluster side with [nPE > 1], a
    successful allocation, a shift count below 32 and a non-empty vector
    of [int8_t] samples, at most 131071 samples a core, the parallel entry
    point is undefined exactly when [nPE] does not divide the length and
    the cores before the last leave nothing,
    [blockSize <= (nPE - 1) * blockSizeP]: then the last core divides by
    zero on an empty slice or reads past the vector.  Signed overflow
    plays no part in this range: every core's slice has at most 131071
    samples, and the exact sum of its shifted squares, none of them
    negative, is below 2^31. *)
Theorem X18_parallel_defined_iff :
  forall kernel unroll mem rt fracBits nPE m,
    (forall p len,
        kernel mem p len fracBits = plp_rms_q8s_rv32im unroll mem p len fracBits) ->
    rt_cluster_id rt <> ARCHI_FC_CID rt ->
    1 < nPE <= 255 ->
    rt_alloc_ok rt nPE = true ->
    Forall int8 mem ->
    0 <= fracBits < 32 ->
    1 <= Z.of_nat (length mem) <= 131071 * nPE ->
    (plp_rms_q8_parallel kernel mem rt 0 (Z.of_nat (length mem)) fracBits nPE m
     = None
     <-> Z.of_nat (length mem) mod nPE <> 0
         /\ Z.of_nat (length mem)
            <= (nPE - 1) * ((Z.of_nat (length mem) + nPE - 1) / nPE))
    /\ (forall core_id,
           0 <= core_id < nPE ->
           exists off len,
             slice {| pSrc := 0; blockSize := Z.of_nat (length mem);
                      fracBits := fracBits; pRes := Scratch; nPE := nPE |}
                   core_id = Some (off, len)
             /\ len <= 131071
             /\ Forall (fun t => 0 <= t)
                       (map (Spec.term fracBits) (Spec.slice mem off len))
             /\ Spec.sum (map (Spec.term fracBits) (Spec.slice mem off len))
                < 2 ^ 31).
Proof.
  intros kernel unroll mem rt f n m Hk Hctx Hn Hok Hmem Hf Hb.
  set (b := Z.of_nat (length mem)) in *.
  destruct (blockSizeP_ceil b n ltac:(lia) ltac:(lia)) as [Hceil HP].
  assert (HPmax : (b + n - 1) / n <= 131071) by nia.
  assert (Hfit : b + n - 1 < 2 ^ 32) by lia.
  split; [split|].
  - intros Hnone.
    destruct (Z.eq_dec (b mod n) 0) as [Hdiv|Hndiv].
    + exfalso.
      pose proof (blockSizeP_exact b n ltac:(lia) ltac:(lia) Hdiv) as Eb.
      destruct (Forall2_chosen
                  (fun c p =>
                     partial kernel mem
                       {| pSrc := 0; blockSize := b; fracBits := f;
                          pRes := Scratch; nPE := n |} c = Some p)
                  (cores (Z.to_nat n) 0)) as [ps Hps].
      { intros c Hin. apply cores_range in Hin. unfold partial.
        rewrite slice_value by lia.
        replace (if c =? n - 1
                 then if b mod n =? 0 then (b + n - 1) / n
                      else b mod ((b + n - 1) / n)
                 else (b + n - 1) / n)
          with ((b + n - 1) / n)
          by (rewrite Hdiv; cbn [Z.eqb]; now destruct (c =? n - 1)).
        cbn [bind Cluster.fracBits]. rewrite Hk.
        rewrite rms_kernel_value by (try assumption; fold b; nia).
        eexists. reflexivity. }
      rewrite (parallel_many _ _ _ _ _ _ _ _ ps) in Hnone by assumption.
      discriminate.
    + split; [exact Hndiv|].
      destruct (Z_lt_le_dec ((n - 1) * ((b + n - 1) / n)) b) as [Hless|];
        [exfalso | assumption].
      pose proof (last_remainder b n ltac:(lia) ltac:(lia) Hndiv Hless) as Er.
      destruct (Forall2_chosen
                  (fun c p =>
                     partial kernel mem
                       {| pSrc := 0; blockSize := b; fracBits := f;
                          pRes := Scratch; nPE := n |} c = Some p)
                  (cores (Z.to_nat n) 0)) as [ps Hps].
      { intros c Hin. apply cores_range in Hin. unfold partial.
        rewrite slice_value by lia.
        replace (b mod n =? 0) with false by settle_guard.
        cbn [bind Cluster.fracBits]. rewrite Hk.
        destruct (c =? n - 1) eqn:Ec.
        - apply Z.eqb_eq in Ec. subst c. rewrite Er.
          rewrite rms_kernel_value by (try assumption; fold b; nia).
          eexists. reflexivity.
        - apply Z.eqb_neq in Ec.
          rewrite rms_kernel_value by (try assumption; fold b; nia).
          eexists. reflexivity. }
      rewrite (parallel_many _ _ _ _ _ _ _ _ ps) in Hnone by assumption.
      discriminate.
  - intros [Hndiv Hfull]. cluster_branch.
    set (m1 := if 1 <? n then _ else _).
    unfold rt_team_fork.
    rewrite (run_team_undefined _ (n - 1)); [reflexivity | | lia].
    intros x. unfold plp_rms_q8p_xpulpv2, partial.
    rewrite slice_value by lia. rewrite Z.eqb_refl.
    replace (b mod n =? 0) with false by settle_guard.
    cbn [bind Cluster.fracBits]. rewrite Hk.
    set (P := (b + n - 1) / n) in *.
    pose proof (Z.mod_pos_bound b P ltac:(lia)) as Hr.
    destruct (Z.eq_dec (b mod P) 0) as [->|Hne].
    + rewrite kernel_empty. reflexivity.
    + rewrite kernel_overrun; [reflexivity | lia | nia | fold b; nia].
  - intros c Hc. rewrite slice_value by lia.
    set (P := (b + n - 1) / n) in *.
    pose proof (Z.mod_pos_bound b P ltac:(lia)) as Hr.
    eexists. eexists. split; [reflexivity|].
    assert (Hlen : (if c =? n - 1
                    then if b mod n =? 0 then P else b mod P
                    else P) <= 131071).
    { destruct (c =? n - 1); [destruct (b mod n =? 0)|]; lia. }
    split; [exact Hlen|].
    apply slice_sum_fits; [assumption | lia | exact Hlen].
Qed.

(** One sample on two cores: the second core gets an empty slice. *)
Lemma X18_witness :
  (rt_cluster_id cluster_side <> ARCHI_FC_CID cluster_side
   /\ Forall int8 [5]
   /\ 1 < 2 <= 255)
  /\ plp_rms_q8_parallel plp_rms_q8s_xpulpv2 [5] cluster_side 0 1 0 2 before
     = None.
Proof.
  assert (Hctx : rt_cluster_id cluster_side <> ARCHI_FC_CID cluster_side)
    by (cbn; lia).
  assert (H1 : Forall int8 [5])
    by (repeat constructor; unfold int8, INT8_MIN, INT8_MAX; lia).
  split; [split; [exact Hctx | split; [exact H1 | lia]]|].
  apply (proj2 (proj1 (X18_parallel_defined_iff plp_rms_q8s_xpulpv2 true [5]
                         cluster_side 0 2 before ltac:(reflexivity) Hctx
                         ltac:(lia) eq_refl H1 ltac:(lia) ltac:(cbn; lia)))).
  cbn. lia.
Defined.
